(** * ZenStates-Linux: the MSR bit-field codec and the P-State mutation protocol

    A shallow embedding of [zenstates.py].  Python integers are unbounded and
    are modelled by [Z]; [&], [|], [~], [<<], [>>] are [Z.land], [Z.lor],
    [Z.lnot], [Z.shiftl], [Z.shiftr] (Python's [~] and [Z.lnot] are both the
    two's complement negation).  Python floats are IEEE-754 binary64 numbers
    and are modelled by the kernel's primitive floats.  Register accesses and
    [print] calls are events of a trace kept by a state-and-exception monad
    over an in-memory register bank.  The order in which [glob.glob] lists
    the CPU devices is a parameter of the script. *)

From Stdlib Require Import ZArith Bool List Lia PrimFloat FloatOps SpecFloat.
From stdpp Require Import base option list gmap.

Set Warnings "-inexact-float".
Local Open Scope Z_scope.

(* ===================================================================== *)
(** ** Exceptions *)
(* ===================================================================== *)

(** The exceptions the script can raise.  [OSError] is the one [readmsr] and
    [writemsr] raise for any failure inside their [try] block. *)
Inductive exn : Type :=
  | OSError
  | ZeroDivisionError
  | OverflowError
  | ValueError
  | IndexError.

(* ===================================================================== *)
(** ** Floats *)
(* ===================================================================== *)

(** Conversion of a Python [int] operand of a float operation: the nearest
    binary64 value, ties to even.  (Python raises [OverflowError] above the
    binary64 range; every integer converted by this program is a bit field of
    at most 8 bits or was obtained by rounding a finite float.) *)
Definition float_of_int (z : Z) : float :=
  SF2Prim (binary_normalize prec emax z 0 false).

(** The integer nearest to [m * 2^e], ties to the even integer. *)
Definition round_half_even (m e : Z) : Z :=
  if 0 <=? e then m * 2 ^ e
  else
    let d := 2 ^ (- e) in
    let q := m / d in
    let r := m mod d in
    if 2 * r <? d then q
    else if d <? 2 * r then q + 1
    else if Z.even q then q else q + 1.

(** Python's [round(x)] of a float with no [ndigits]: an [int], ties to even;
    [OverflowError] on an infinity, [ValueError] on a NaN. *)
Definition py_round (x : float) : exn + Z :=
  match Prim2SF x with
  | S754_zero _ => inr 0
  | S754_finite s m e =>
      let v := round_half_even (Z.pos m) e in
      inr (if s then - v else v)
  | S754_infinity _ => inl OverflowError
  | S754_nan => inl ValueError
  end.

(* ===================================================================== *)
(** ** The P-State codec *)
(* ===================================================================== *)

(** Python's [range(lo, hi)] as a list. *)
Definition range (lo hi : Z) : list Z :=
  (λ i, lo + Z.of_nat i) <$> seq 0 (Z.to_nat (hi - lo)).

(** [pstates = range(0xC0010064, 0xC001006C)] *)
Definition pstates : list Z := range 0xC0010064 0xC001006C.

(** What [pstate2str] formats into its string: either ["Disabled"], or the
    five values of the ["Enabled - FID = ..."] line.  The rendering of the
    numbers as text is not modelled. *)
Inductive description : Type :=
  | Disabled
  | Enabled (fid did vid : Z) (ratio vcore : float).

(** [vcore = 1.55 - 0.00625 * vid] *)
Definition vid_to_vcore (vid : Z) : float :=
  PrimFloat.sub 1.55 (PrimFloat.mul 0.00625 (float_of_int vid)).

(** [pstate2str(val)].  The division [25 * fid / (12.5 * did)] is a float
    division: it raises [ZeroDivisionError] when the divisor equals [0.0]. *)
Definition pstate2str (val : Z) : exn + description :=
  if negb (Z.land val (Z.shiftl 1 63) =? 0) then
    let fid := Z.land val 0xff in
    let did := Z.shiftr (Z.land val 0x3f00) 8 in
    let vid := Z.shiftr (Z.land val 0x3fc000) 14 in
    let den := PrimFloat.mul 12.5 (float_of_int did) in
    if PrimFloat.eqb den 0 then inl ZeroDivisionError
    else
      let ratio := PrimFloat.div (float_of_int (25 * fid)) den in
      let vcore := vid_to_vcore vid in
      inr (Enabled fid did vid ratio vcore)
  else inr Disabled.

(** [setbits(val, base, length, new)] *)
Definition setbits (val base length new : Z) : Z :=
  let mask := Z.shiftl 1 length - 1 in
  Z.lor (Z.land val (Z.lnot (Z.shiftl mask base))) (Z.shiftl new base).

Definition setfid (val new : Z) : Z := setbits val 0 8 new.
Definition setdid (val new : Z) : Z := setbits val 8 6 new.
Definition setvid (val new : Z) : Z := setbits val 14 8 new.

(** [vcore_to_vid(vcore) = int(round((1.55 - vcore) / 0.00625))] *)
Definition vcore_to_vid (vcore : float) : exn + Z :=
  py_round (PrimFloat.div (PrimFloat.sub 1.55 vcore) 0.00625).

(** The four fields as [pstate2str] reads them, whatever bit 63 says. *)
Definition enabled_of (val : Z) : bool := negb (Z.land val (Z.shiftl 1 63) =? 0).
Definition fid_of (val : Z) : Z := Z.land val 0xff.
Definition did_of (val : Z) : Z := Z.shiftr (Z.land val 0x3f00) 8.
Definition vid_of (val : Z) : Z := Z.shiftr (Z.land val 0x3fc000) 14.

Definition decode (val : Z) : bool * Z * Z * Z :=
  (enabled_of val, fid_of val, did_of val, vid_of val).

(** The four edits of the mutation block applied to a register value, in the
    block's order: bit 63, then [setfid], [setdid], [setvid]. *)
Definition encode (val : Z) (enabled : bool) (fid did vid : Z) : Z :=
  setvid (setdid (setfid (setbits val 63 1 (if enabled then 1 else 0)) fid) did) vid.

(** A register value: what [struct.pack('Q', _)] accepts and
    [struct.unpack('Q', _)] returns. *)
Definition is_u64 (v : Z) : Prop := 0 <= v < 2 ^ 64.

Definition u64b (v : Z) : bool := (0 <=? v) && (v <? 2 ^ 64).

(** The [len]-bit field of [val] at bit [base], in the shape of the three
    field reads of [pstate2str]: mask in place, then shift down. *)
Definition field (val base len : Z) : Z :=
  Z.shiftr (Z.land val (Z.shiftl (Z.ones len) base)) base.

(** Does [vcore_to_vid] give [vid] back from the voltage of [vid]? *)
Definition vcore_inverse_check (vid : Z) : bool :=
  match vcore_to_vid (vid_to_vcore vid) with
  | inr v => v =? vid
  | inl _ => false
  end.

(* ===================================================================== *)
(** ** The command line *)
(* ===================================================================== *)

(** The namespace [parser.parse_args()] returns. *)
Module args.
Record t : Type := mk {
  list : bool;
  pstate : Z;          (* -1, or one of range(8) *)
  enable : bool;
  disable : bool;
  fid : Z;             (* -1 by default *)
  did : Z;
  vid : Z;
  vcore : float;       (* -1 by default *)
  c6_enable : bool;
  c6_disable : bool
}.
End args.

(* ===================================================================== *)
(** ** The register transport and the trace *)
(* ===================================================================== *)

(** The MSR devices [/dev/cpu/N/msr]: one register bank per CPU, the devices
    numbered from 0 without gaps and CPU [N] at index [N]; a bank maps the
    addresses of the registers the CPU implements to their values.  On
    hardware these values are register values ([is_u64]); a theorem that
    needs it of a value says so. *)
Abbreviation machine := (list (gmap Z Z)).

(** What the script prints, one constructor per [print] call. *)
Inductive output : Type :=
  | OutPState (p : Z) (d : description)       (* P{p} - {pstate2str(..)} *)
  | OutC6Package (on : bool)
  | OutC6Core (on : bool)
  | OutCurrent (p : Z) (d : description)
  | OutEnabling
  | OutDisabling
  | OutSetFid (fid : Z)
  | OutSetDid (did : Z)
  | OutSetVid (vid : Z)
  | OutSetVcore (actual_vcore : float) (vid : Z)
  | OutLockingTSC
  | OutNew (p : Z) (d : description)
  | OutC6Enabling
  | OutC6Disabling
  | OutHelp.

Inductive event : Type :=
  | EvRead (cpu : nat) (msr val : Z)
  | EvWrite (cpu : nat) (msr val : Z)
  | EvPrint (o : output).

(** A computation: from a machine to the events it produced, the machine it
    left, and its value or the exception that ended it. *)
Definition M (A : Type) : Type := machine → list event * machine * (exn + A).

Definition ret {A} (a : A) : M A := λ s, ([], s, inr a).

Definition raise {A} (e : exn) : M A := λ s, ([], s, inl e).

Definition bind {A B} (m : M A) (f : A → M B) : M B :=
  λ s, match m s with
       | (t1, s1, inl e) => (t1, s1, inl e)
       | (t1, s1, inr a) =>
           match f a s1 with
           | (t2, s2, r) => (t1 ++ t2, s2, r)
           end
       end.

Notation "x <- m ;; k" := (bind m (λ x, k))
  (at level 100, m at next level, right associativity).
Notation "m ;;; k" := (bind m (λ _, k))
  (at level 100, right associativity).

Definition lift {A} (r : exn + A) : M A := λ s, ([], s, r).

Definition print (o : output) : M unit := λ s, ([EvPrint o], s, inr tt).

Definition when (b : bool) (m : M unit) : M unit := if b then m else ret tt.

(** [for x in l: body(x)] *)
Fixpoint for_each {A} (l : list A) (body : A → M unit) : M unit :=
  match l with
  | [] => ret tt
  | x :: l' => body x ;;; for_each l' body
  end.

Section Script.

(** [glob.glob('/dev/cpu/[0-9]*/msr')]: the CPU devices of the machine, each
    once, in an order the script does not choose (the listing is unsorted).
    The order is a parameter: a device list for every machine, constrained
    only to be a permutation of the CPU indices. *)
Context (glob : machine → list nat).
Hypothesis glob_perm : ∀ s : machine, glob s ≡ₚ seq 0 (length s).

(** [glob.glob('/dev/cpu/[0-9]*/msr')] as a step of the script. *)
Definition cpu_devices : M (list nat) := λ s, ([], s, inr (glob s)).

(** [len(glob.glob('/dev/cpu/[0-9]*/msr'))] *)
Definition ncpus : M nat := λ s, ([], s, inr (length (glob s))).

(** One pass of the body of [writemsr]: open the device of [cpu], seek to
    [msr], pack [val] as an unsigned 64-bit number, write it.  Each step can
    fail: no such CPU, [val] outside [0, 2^64), no such register. *)
Definition write_one (msr val : Z) (cpu : nat) : M unit :=
  λ s, match s !! cpu with
       | Some bank =>
           if u64b val && bool_decide (is_Some (bank !! msr))
           then ([EvWrite cpu msr val], <[cpu := <[msr := val]> bank]> s, inr tt)
           else ([], s, inl OSError)
       | None => ([], s, inl OSError)
       end.

(** [writemsr(msr, val, cpu=-1)]; [None] is the default [-1]: every CPU the
    glob finds, in the order the glob lists them. *)
Definition writemsr (msr val : Z) (cpu : option nat) : M unit :=
  match cpu with
  | None => cpus <- cpu_devices ;; for_each cpus (write_one msr val)
  | Some c => write_one msr val c
  end.

(** [readmsr(msr, cpu=0)] *)
Definition readmsr (msr : Z) (cpu : nat) : M Z :=
  λ s, match s !! cpu ≫= (λ bank, bank !! msr) with
       | Some val => ([EvRead cpu msr val], s, inr val)
       | None => ([], s, inl OSError)
       end.

(** [pstates[p]] for [p >= 0]. *)
Definition pstates_at (p : Z) : M Z :=
  match pstates !! Z.to_nat p with
  | Some a => ret a
  | None => raise IndexError
  end.

(* ===================================================================== *)
(** ** The script *)
(* ===================================================================== *)

Definition TSC_LOCK : Z := 0xC0010015.
Definition C6_PACKAGE : Z := 0xC0010292.
Definition C6_CORE : Z := 0xC0010296.

(** [(1 << 22) | (1 << 14) | (1 << 6)] *)
Definition c6_core_bits : Z :=
  Z.lor (Z.lor (Z.shiftl 1 22) (Z.shiftl 1 14)) (Z.shiftl 1 6).

(** [if args.list: ...] *)
Definition list_block (a : args.t) : M unit :=
  when (args.list a) (
    for_each (range 0 (Z.of_nat (length pstates))) (λ p,
      addr <- pstates_at p ;;
      v <- readmsr addr 0 ;;
      d <- lift (pstate2str v) ;;
      print (OutPState p d)) ;;;
    v <- readmsr C6_PACKAGE 0 ;;
    print (OutC6Package (negb (Z.land v (Z.shiftl 1 32) =? 0))) ;;;
    v <- readmsr C6_CORE 0 ;;
    print (OutC6Core (Z.land v c6_core_bits =? c6_core_bits))).

(** Lines 97-116: the field edits, from [new = old] to the final [new]. *)
Definition edit_fields (a : args.t) (old : Z) : M Z :=
  new <- ret old ;;
  new <- (if args.enable a
         then let new := setbits new 63 1 1 in
              print OutEnabling ;;; ret new
         else ret new) ;;
  new <- (if args.disable a
         then let new := setbits new 63 1 0 in
              print OutDisabling ;;; ret new
         else ret new) ;;
  new <- (if 0 <=? args.fid a
         then let new := setfid new (args.fid a) in
              print (OutSetFid (args.fid a)) ;;; ret new
         else ret new) ;;
  new <- (if 0 <=? args.did a
         then let new := setdid new (args.did a) in
              print (OutSetDid (args.did a)) ;;; ret new
         else ret new) ;;
  new <- (if 0 <=? args.vid a
         then let new := setvid new (args.vid a) in
              print (OutSetVid (args.vid a)) ;;; ret new
         else ret new) ;;
  if PrimFloat.leb 0 (args.vcore a)
  then
    vid <- lift (vcore_to_vid (args.vcore a)) ;;
    let actual_vcore :=
      PrimFloat.sub 1.55 (PrimFloat.mul (float_of_int vid) 0.00625) in
    let new := setvid new vid in
    print (OutSetVcore actual_vcore vid) ;;;
    ret new
  else ret new.

(** Lines 119-121: the TSC-lock loop, run when the lock bit is clear. *)
Definition lock_tsc : M unit :=
  print OutLockingTSC ;;;
  n <- ncpus ;;
  for_each (seq 0 n) (λ c,
    v <- readmsr TSC_LOCK c ;;
    writemsr TSC_LOCK (Z.lor v (Z.shiftl 1 21)) (Some c)).

(** Lines 122-123: print the new state, then the broadcast write. *)
Definition write_new (p addr new : Z) : M unit :=
  d <- lift (pstate2str new) ;;
  print (OutNew p d) ;;;
  writemsr addr new None.

(** Lines 117-123: [if new != old: ...] *)
Definition commit (p addr old new : Z) : M unit :=
  when (negb (new =? old)) (
    lock <- readmsr TSC_LOCK 0 ;;
    when (Z.land lock (Z.shiftl 1 21) =? 0) lock_tsc ;;;
    write_new p addr new).

(** [if args.pstate >= 0: ...] *)
Definition pstate_block (a : args.t) : M unit :=
  when (0 <=? args.pstate a) (
    addr <- pstates_at (args.pstate a) ;;
    old <- readmsr addr 0 ;;
    d <- lift (pstate2str old) ;;
    print (OutCurrent (args.pstate a) d) ;;;
    new <- edit_fields a old ;;
    commit (args.pstate a) addr old new).

(** [if args.c6_enable: ...] *)
Definition c6_enable_block (a : args.t) : M unit :=
  when (args.c6_enable a) (
    v <- readmsr C6_PACKAGE 0 ;;
    writemsr C6_PACKAGE (Z.lor v (Z.shiftl 1 32)) None ;;;
    v <- readmsr C6_CORE 0 ;;
    writemsr C6_CORE (Z.lor v c6_core_bits) None ;;;
    print OutC6Enabling).

(** [if args.c6_disable: ...] *)
Definition c6_disable_block (a : args.t) : M unit :=
  when (args.c6_disable a) (
    v <- readmsr C6_PACKAGE 0 ;;
    writemsr C6_PACKAGE (Z.land v (Z.lnot (Z.shiftl 1 32))) None ;;;
    v <- readmsr C6_CORE 0 ;;
    writemsr C6_CORE (Z.land v (Z.lnot c6_core_bits)) None ;;;
    print OutC6Disabling).

(** The last [if]: no action requested. *)
Definition help_block (a : args.t) : M unit :=
  when (negb (args.list a) && (args.pstate a =? -1)
        && negb (args.c6_enable a) && negb (args.c6_disable a))
       (print OutHelp).

(** The script after [parse_args]. *)
Definition main (a : args.t) : M unit :=
  list_block a ;;;
  pstate_block a ;;;
  c6_enable_block a ;;;
  c6_disable_block a ;;;
  help_block a.

(* ===================================================================== *)
(** ** Vocabulary for the properties *)
(* ===================================================================== *)

Definition is_write (e : event) : bool :=
  match e with EvWrite _ _ _ => true | _ => false end.

Definition is_print (e : event) : bool :=
  match e with EvPrint _ => true | _ => false end.

Definition writes_to (msr : Z) (e : event) : bool :=
  match e with EvWrite _ m _ => m =? msr | _ => false end.

Definition on_register (msr : Z) (e : event) : bool :=
  match e with EvRead _ m _ | EvWrite _ m _ => m =? msr | EvPrint _ => false end.

(** Every write to [addr] in the trace comes strictly after a write, to each
    of the [n] CPUs, of a value with bit 21 set to the TSC-lock register. *)
Definition lock_precedes (n : nat) (addr : Z) (t : list event) : Prop :=
  ∀ i c' v', t !! i = Some (EvWrite c' addr v') →
    ∀ c, (c < n)%nat →
      ∃ j v, (j < i)%nat ∧ t !! j = Some (EvWrite c TSC_LOCK v)
             ∧ Z.testbit v 21 = true.

(** The value [edit_fields] computes, without its prints. *)
Definition edited (a : args.t) (old : Z) : exn + Z :=
  let new := old in
  let new := if args.enable a then setbits new 63 1 1 else new in
  let new := if args.disable a then setbits new 63 1 0 else new in
  let new := if 0 <=? args.fid a then setfid new (args.fid a) else new in
  let new := if 0 <=? args.did a then setdid new (args.did a) else new in
  let new := if 0 <=? args.vid a then setvid new (args.vid a) else new in
  if PrimFloat.leb 0 (args.vcore a)
  then match vcore_to_vid (args.vcore a) with
       | inl e => inl e
       | inr vid => inr (setvid new vid)
       end
  else inr new.

(* ===================================================================== *)
(** ** Sample machines and command lines *)
(* ===================================================================== *)

(** A register bank with the four kinds of register the script touches. *)
Definition sample_bank (p0 lock pkg core : Z) : gmap Z Z :=
  <[0xC0010064 := p0]> (<[TSC_LOCK := lock]> (<[C6_PACKAGE := pkg]> (<[C6_CORE := core]> ∅))).

(** Two CPUs, P0 enabled with FID 5 and DID 8, TSC not locked, C6 off. *)
Definition sample_machine : machine :=
  [sample_bank 0x8000000000000805 0 0 0; sample_bank 0x8000000000000805 0 0 0].

(** Two listing orders: by CPU index, and [l] on the machines whose CPUs [l]
    lists (by index on the others). *)
Definition index_order : machine → list nat := λ s, seq 0 (length s).
Definition listed (l : list nat) : machine → list nat :=
  λ s, if decide (l ≡ₚ seq 0 (length s)) then l else seq 0 (length s).

(** Three CPUs, C6 off. *)
Definition three_cpus : machine :=
  [sample_bank 0 0 0 0; sample_bank 0 0 0 0; sample_bank 0 0 0 0].

(** [-p 0 --vid 10 --vcore V] *)
Definition args_vid_vcore (V : float) : args.t :=
  args.mk false 0 false false (-1) (-1) 0x10 V false false.

(** [-p 0 --fid F] *)
Definition args_fid (F : Z) : args.t :=
  args.mk false 0 false false F (-1) (-1) (-1) false false.

(** [--c6-enable] and [--c6-disable] *)
Definition args_c6 (on off : bool) : args.t :=
  args.mk false (-1) false false (-1) (-1) (-1) (-1) on off.

(** [--list] *)
Definition args_list : args.t :=
  args.mk true (-1) false false (-1) (-1) (-1) (-1) false false.

(** The bits of a P-State value outside the four fields are kept, and a
    register value stays one. *)
Definition same_rest (v w : Z) : Prop :=
  (∀ n, 22 <= n < 63 → Z.testbit w n = Z.testbit v n) ∧ (is_u64 v → is_u64 w).

(** The VID a request asks for, or the one of [old]. *)
Definition requested_vid (a : args.t) (old : Z) : Z :=
  if PrimFloat.leb 0 (args.vcore a)
  then match vcore_to_vid (args.vcore a) with inr v => v | inl _ => vid_of old end
  else if 0 <=? args.vid a then args.vid a else vid_of old.

(** The value of register [m] on CPU [c], if both exist. *)
Definition reg (s : machine) (c : nat) (m : Z) : option Z :=
  s !! c ≫= (λ bank : gmap Z Z, bank !! m).

(** Every run of [comp] relates the machine it starts from to the one it
    leaves by [R], and emits only events that satisfy [P]. *)
Definition respects {A} (R : machine → machine → Prop) (P : event → Prop)
    (comp : M A) : Prop :=
  ∀ s t s' r, comp s = (t, s', r) → R s s' ∧ Forall P t.

(** Same number of CPUs, and the same value in every register that is not
    one of [regs]. *)
Definition frame_outside (regs : list Z) (s s' : machine) : Prop :=
  length s' = length s ∧ ∀ c m, m ∉ regs → reg s' c m = reg s c m.

(** An event that is no write, or a write to one of [regs]. *)
Definition writes_within (regs : list Z) (e : event) : Prop :=
  ∀ c m v, e = EvWrite c m v → m ∈ regs.

(** On every CPU the TSC-lock register is as it was, or as it was with bit
    21 set. *)
Definition lock_only_set (s s' : machine) : Prop :=
  ∀ c, reg s' c TSC_LOCK = reg s c TSC_LOCK
       ∨ ∃ v, reg s c TSC_LOCK = Some v
              ∧ reg s' c TSC_LOCK = Some (Z.lor v (Z.shiftl 1 21)).

(** The registers the script names. *)
Definition script_registers : list Z :=
  TSC_LOCK :: C6_PACKAGE :: C6_CORE :: pstates.

(** A bank after the TSC-lock loop has passed over its CPU. *)
Definition lock_bank (bank : gmap Z Z) : gmap Z Z :=
  match bank !! TSC_LOCK with
  | Some v => <[TSC_LOCK := Z.lor v (Z.shiftl 1 21)]> bank
  | None => bank
  end.

(** A bank with all eight P-State registers: P0 holds [p0], the others 0. *)
Definition full_bank (p0 : Z) : gmap Z Z :=
  <[0xC0010064 := p0]>
    (foldr (λ addr bank, <[addr := 0]> bank) (sample_bank 0 0 0 0) pstates).

(** Two CPUs, P0 enabled, whose TSC-lock registers differ. *)
Definition mixed_machine : machine :=
  [sample_bank 0x8000000000000805 0 0 0; sample_bank 0x8000000000000805 0x4 0 0].

(** Four CPUs; the MSR device of CPU 2 has no register. *)
Definition broken_machine : machine :=
  [sample_bank 0 0 0 0; sample_bank 0 0 0 0; ∅; sample_bank 0 0 0 0].

(** [-p 0 --enable --disable --fid 10 --vcore 1.1] *)
Definition args_enable_disable : args.t :=
  args.mk false 0 true true 0x10 (-1) (-1) 1.1 false false.

(* ===================================================================== *)
(** ** The definitions at concrete inputs *)
(* ===================================================================== *)

(** [round] goes to the even neighbour on a tie, on both sides of zero. *)
Example py_round_ties :
  (py_round 0.5, py_round 1.5, py_round 2.5, py_round (-0.5), py_round (-1.5),
   py_round 72.49, py_round infinity, py_round nan)
  = (inr 0, inr 2, inr 2, inr 0, inr (-2), inr 72, inl OverflowError, inl ValueError).
Proof. vm_compute. reflexivity. Qed.

Example float_of_int_small :
  (float_of_int 0, float_of_int 63, float_of_int (-72), float_of_int (25 * 255))
  = (0, 63, -72, 6375)%float.
Proof. vm_compute. reflexivity. Qed.

Example pstates_addresses :
  pstates = [0xC0010064; 0xC0010065; 0xC0010066; 0xC0010067;
             0xC0010068; 0xC0010069; 0xC001006A; 0xC001006B].
Proof. reflexivity. Qed.

(** Enabled, FID 5, DID 8: ratio 25 * 5 / (12.5 * 8) = 1.25. *)
Example pstate2str_enabled :
  pstate2str 0x8000000000000805 = inr (Enabled 5 8 0 1.25 1.55).
Proof. vm_compute. reflexivity. Qed.

Example pstate2str_disabled : pstate2str 0x0000000000000805 = inr Disabled.
Proof. reflexivity. Qed.

Example vcore_to_vid_at_zero : vcore_to_vid 0 = inr 248.
Proof. vm_compute. reflexivity. Qed.

(* ===================================================================== *)
(** ** Bit-level facts about the codec *)
(* ===================================================================== *)

Lemma mask_ones len : Z.shiftl 1 len - 1 = Z.ones len.
Proof. unfold Z.ones. lia. Qed.

Lemma testbit_small new len k :
  0 <= new < 2 ^ len → len <= k → Z.testbit new k = false.
Proof.
  intros [H0 H1] Hk.
  destruct (Z.eq_dec new 0) as [->|Hne]; [apply Z.bits_0|].
  apply Z.bits_above_log2; [lia|].
  assert (Z.log2 new < len); [|lia].
  apply Z.log2_lt_pow2; lia.
Qed.

Lemma setbits_spec val base len new n :
  0 <= base → 0 <= len → 0 <= n →
  Z.testbit (setbits val base len new) n
  = Z.testbit val n && negb ((base <=? n) && (n <? base + len))
    || Z.testbit new (n - base).
Proof.
  intros Hb Hl Hn. unfold setbits. rewrite mask_ones.
  rewrite Z.lor_spec, Z.land_spec, Z.lnot_spec, !Z.shiftl_spec by lia.
  rewrite Z.testbit_ones by lia.
  destruct (Z.leb_spec base n), (Z.ltb_spec n (base + len)),
    (Z.leb_spec 0 (n - base)), (Z.ltb_spec (n - base) len); try lia;
    destruct (Z.testbit val n), (Z.testbit new (n - base)); reflexivity.
Qed.

Lemma setbits_frame val base len new n :
  0 <= base → 0 <= len → 0 <= new < 2 ^ len →
  ¬ (base <= n < base + len) →
  Z.testbit (setbits val base len new) n = Z.testbit val n.
Proof.
  intros Hb Hl Hnew Hout.
  destruct (Z.le_gt_cases 0 n) as [Hn|Hn];
    [|rewrite !Z.testbit_neg_r by lia; reflexivity].
  rewrite setbits_spec by lia.
  destruct (Z.le_gt_cases base n) as [Hbn|Hbn].
  - rewrite (testbit_small new len) by lia.
    replace ((base <=? n) && (n <? base + len)) with false by lia.
    simpl. rewrite andb_true_r, orb_false_r. reflexivity.
  - rewrite (Z.testbit_neg_r new) by lia.
    replace (base <=? n) with false by lia.
    simpl. rewrite andb_true_r, orb_false_r. reflexivity.
Qed.

Lemma setbits_inside val base len new n :
  0 <= base → 0 <= len → base <= n < base + len →
  Z.testbit (setbits val base len new) n = Z.testbit new (n - base).
Proof.
  intros Hb Hl Hin. rewrite setbits_spec by lia.
  replace ((base <=? n) && (n <? base + len)) with true by lia.
  simpl. rewrite andb_false_r. reflexivity.
Qed.

Lemma field_spec val base len n :
  0 <= base → 0 <= len → 0 <= n →
  Z.testbit (field val base len) n = Z.testbit val (n + base) && (n <? len).
Proof.
  intros Hb Hl Hn. unfold field.
  rewrite Z.shiftr_spec, Z.land_spec, Z.shiftl_spec by lia.
  rewrite Z.testbit_ones by lia.
  replace (n + base - base) with n by lia.
  replace (0 <=? n) with true by lia. reflexivity.
Qed.

Lemma field_ext v w base len :
  0 <= base → 0 <= len →
  (∀ n, base <= n < base + len → Z.testbit v n = Z.testbit w n) →
  field v base len = field w base len.
Proof.
  intros Hb Hl H. apply Z.bits_inj'. intros n Hn.
  rewrite !field_spec by lia.
  destruct (n <? len) eqn:E; [|rewrite !andb_false_r; reflexivity].
  rewrite H by lia. reflexivity.
Qed.

Lemma field_setbits_same val base len new :
  0 <= base → 0 <= len → 0 <= new < 2 ^ len →
  field (setbits val base len new) base len = new.
Proof.
  intros Hb Hl Hnew. apply Z.bits_inj'. intros n Hn.
  rewrite field_spec by lia.
  destruct (n <? len) eqn:E.
  - rewrite setbits_inside by lia. rewrite andb_true_r. f_equal. lia.
  - rewrite andb_false_r. symmetry. apply (testbit_small new len); lia.
Qed.

Lemma field_setbits_other val base len base' len' new :
  0 <= base → 0 <= len → 0 <= base' → 0 <= len' → 0 <= new < 2 ^ len' →
  base + len <= base' ∨ base' + len' <= base →
  field (setbits val base' len' new) base len = field val base len.
Proof.
  intros. apply field_ext; [lia..|]. intros n Hn.
  apply setbits_frame; lia.
Qed.

Lemma fid_of_field val : fid_of val = field val 0 8.
Proof. unfold fid_of, field. rewrite Z.shiftr_0_r. reflexivity. Qed.
Lemma did_of_field val : did_of val = field val 8 6.
Proof. reflexivity. Qed.
Lemma vid_of_field val : vid_of val = field val 14 8.
Proof. reflexivity. Qed.

Lemma bit_test val k :
  0 <= k → negb (Z.land val (Z.shiftl 1 k) =? 0) = Z.testbit val k.
Proof.
  intros Hk.
  assert (Z.land val (Z.shiftl 1 k) = if Z.testbit val k then 2 ^ k else 0) as ->.
  { apply Z.bits_inj'. intros n Hn.
    rewrite Z.land_spec, Z.shiftl_1_l, Z.pow2_bits_eqb by lia.
    destruct (Z.eqb_spec k n) as [->|Hne].
    - rewrite andb_true_r. destruct (Z.testbit val n).
      + rewrite Z.pow2_bits_true by lia. reflexivity.
      + rewrite Z.bits_0. reflexivity.
    - rewrite andb_false_r. destruct (Z.testbit val k).
      + rewrite Z.pow2_bits_false by lia. reflexivity.
      + rewrite Z.bits_0. reflexivity. }
  destruct (Z.testbit val k); [|reflexivity].
  assert (0 < 2 ^ k) by (apply Z.pow_pos_nonneg; lia).
  destruct (Z.eqb_spec (2 ^ k) 0); [lia|reflexivity].
Qed.

Lemma enabled_of_testbit val : enabled_of val = Z.testbit val 63.
Proof. apply bit_test. lia. Qed.

Lemma field_bounds val base len :
  0 <= base → 0 <= len → 0 <= field val base len < 2 ^ len.
Proof.
  intros Hb Hl. unfold field.
  rewrite Z.shiftr_land, Z.shiftr_shiftl_l, Z.sub_diag, Z.shiftl_0_r by lia.
  rewrite Z.land_ones by lia.
  apply Z.mod_pos_bound. apply Z.pow_pos_nonneg; lia.
Qed.

Lemma field_low_bits v w base len k :
  0 <= base → 0 <= len → base + len <= k →
  Z.land v (Z.ones k) = Z.land w (Z.ones k) →
  field v base len = field w base len.
Proof.
  intros Hb Hl Hk E. apply field_ext; [lia..|]. intros n Hn.
  assert (Z.testbit (Z.land v (Z.ones k)) n = Z.testbit (Z.land w (Z.ones k)) n)
    as Hbit by (rewrite E; reflexivity).
  rewrite !Z.land_spec, Z.testbit_ones in Hbit by lia.
  replace ((0 <=? n) && (n <? k)) with true in Hbit by lia.
  rewrite !andb_true_r in Hbit. exact Hbit.
Qed.

Lemma enabled_of_setbits_low val base len new :
  0 <= base → 0 <= len → base + len <= 63 → 0 <= new < 2 ^ len →
  enabled_of (setbits val base len new) = enabled_of val.
Proof.
  intros. rewrite !enabled_of_testbit. apply setbits_frame; lia.
Qed.

Lemma enabled_of_set val (b : bool) :
  enabled_of (setbits val 63 1 (if b then 1 else 0)) = b.
Proof.
  rewrite enabled_of_testbit, setbits_inside by lia.
  destruct b; reflexivity.
Qed.

(** Claim C1 (round-trip of the P-State codec).  For every starting register
    value, every enabled flag and every [fid < 2^8], [did < 2^6],
    [vid < 2^8], decoding the encoded value with the masks of [pstate2str]
    gives back [(enabled, fid, did, vid)]; the three fields are determined by
    the 22 low bits alone, and the enabled flag does not depend on them. *)
Theorem pstate_codec_roundtrip (val : Z) (en : bool) (fid did vid : Z) :
  0 <= fid < 2 ^ 8 → 0 <= did < 2 ^ 6 → 0 <= vid < 2 ^ 8 →
  decode (encode val en fid did vid) = (en, fid, did, vid)
  ∧ (∀ w, Z.land w (Z.ones 22) = Z.land (encode val en fid did vid) (Z.ones 22) →
          (fid_of w, did_of w, vid_of w) = (fid, did, vid))
  ∧ (∀ fid' did' vid', 0 <= fid' < 2 ^ 8 → 0 <= did' < 2 ^ 6 → 0 <= vid' < 2 ^ 8 →
          enabled_of (encode val en fid' did' vid') = enabled_of (encode val en fid did vid)).
Proof.
  intros Hf Hd Hv.
  assert (Hfields : ∀ f d v, 0 <= f < 2 ^ 8 → 0 <= d < 2 ^ 6 → 0 <= v < 2 ^ 8 →
            decode (encode val en f d v) = (en, f, d, v)).
  { intros f d v Hf' Hd' Hv'. unfold decode, encode, setvid, setdid, setfid.
    repeat f_equal.
    - rewrite !enabled_of_setbits_low by lia. apply enabled_of_set.
    - rewrite fid_of_field, !field_setbits_other by lia.
      apply field_setbits_same; lia.
    - rewrite did_of_field, field_setbits_other by lia.
      apply field_setbits_same; lia.
    - rewrite vid_of_field. apply field_setbits_same; lia. }
  pose proof (Hfields fid did vid Hf Hd Hv) as Hrt.
  split; [exact Hrt|]. split.
  - intros w Hw. unfold decode in Hrt.
    rewrite fid_of_field, did_of_field, vid_of_field.
    rewrite (field_low_bits w _ 0 8 22), (field_low_bits w _ 8 6 22),
      (field_low_bits w _ 14 8 22) by (first [lia | exact Hw]).
    rewrite <- fid_of_field, <- did_of_field, <- vid_of_field.
    congruence.
  - intros f d v Hf' Hd' Hv'.
    pose proof (Hfields f d v Hf' Hd' Hv') as Hrt'.
    unfold decode in *. congruence.
Qed.

(** Claim C5 (field isolation).  With an in-range new value, [setfid] leaves
    every bit outside 0-7 as it was, hence the DID field, the VID field and
    the enabled bit; [setdid] and [setvid] likewise alter only bits 8-13 and
    14-21. *)
Theorem encode_field_isolation (val fid did vid : Z) :
  0 <= fid < 2 ^ 8 → 0 <= did < 2 ^ 6 → 0 <= vid < 2 ^ 8 →
  ((∀ n, ¬ (0 <= n < 8) → Z.testbit (setfid val fid) n = Z.testbit val n)
   ∧ did_of (setfid val fid) = did_of val
   ∧ vid_of (setfid val fid) = vid_of val
   ∧ enabled_of (setfid val fid) = enabled_of val)
  ∧ ((∀ n, ¬ (8 <= n < 14) → Z.testbit (setdid val did) n = Z.testbit val n)
   ∧ fid_of (setdid val did) = fid_of val
   ∧ vid_of (setdid val did) = vid_of val
   ∧ enabled_of (setdid val did) = enabled_of val)
  ∧ ((∀ n, ¬ (14 <= n < 22) → Z.testbit (setvid val vid) n = Z.testbit val n)
   ∧ fid_of (setvid val vid) = fid_of val
   ∧ did_of (setvid val vid) = did_of val
   ∧ enabled_of (setvid val vid) = enabled_of val).
Proof.
  intros Hf Hd Hv. unfold setfid, setdid, setvid.
  rewrite !fid_of_field, !did_of_field, !vid_of_field.
  repeat split;
    first [ intros n Hn; apply setbits_frame; lia
          | apply field_setbits_other; lia
          | apply enabled_of_setbits_low; lia ].
Qed.

Lemma vcore_inverse_all : forallb vcore_inverse_check (range 0 256) = true.
Proof. vm_compute. reflexivity. Qed.

Lemma elem_of_range lo hi x : lo <= x < hi → x ∈ range lo hi.
Proof.
  intros Hx. unfold range. apply list_elem_of_fmap.
  exists (Z.to_nat (x - lo)). split; [lia|].
  apply elem_of_seq. lia.
Qed.

(** Claim C8 ([vcore_to_vid] inverts the voltage formula).  For every [vid]
    in [0, 255], [vcore_to_vid(1.55 - 0.00625 * vid)] is [vid], computed in
    binary64 arithmetic as the code does; [vcore = 1.1] gives 72, and 72
    encoded by [setvid] reads back as 0x48. *)
Theorem vcore_to_vid_inverse (vid : Z) :
  0 <= vid <= 255 →
  vcore_to_vid (vid_to_vcore vid) = inr vid
  ∧ vcore_to_vid 1.1 = inr 72
  ∧ (∀ val, vid_of (setvid val 72) = 0x48).
Proof.
  intros Hvid. split; [|split].
  - pose proof vcore_inverse_all as Hall.
    rewrite forallb_forall in Hall.
    specialize (Hall vid). unfold vcore_inverse_check in Hall.
    destruct (vcore_to_vid (vid_to_vcore vid)) as [e|v].
    + discriminate Hall. apply list_elem_of_In, elem_of_range. lia.
    + f_equal. apply Z.eqb_eq, Hall, list_elem_of_In, elem_of_range. lia.
  - vm_compute. reflexivity.
  - intros val. rewrite vid_of_field. apply field_setbits_same; lia.
Qed.

Lemma vcore_to_vid_inverse_witness :
  0 <= 200 <= 255 ∧ vcore_to_vid (vid_to_vcore 200) = inr 200.
Proof. split; [lia | apply (vcore_to_vid_inverse 200); lia]. Defined.

(* ===================================================================== *)
(** ** The monad and the transport *)
(* ===================================================================== *)

Section Monad.
Context {A B : Type}.
Implicit Types (m : M A) (f : A → M B).

Lemma bind_ok m f s t1 s1 a :
  m s = (t1, s1, inr a) →
  bind m f s = (t1 ++ (f a s1).1.1, (f a s1).1.2, (f a s1).2).
Proof. intros H. unfold bind. rewrite H. destruct (f a s1) as [[??]?]. reflexivity. Qed.

Lemma bind_err m f s t1 s1 e :
  m s = (t1, s1, inl e) → bind m f s = (t1, s1, inl e).
Proof. intros H. unfold bind. rewrite H. reflexivity. Qed.

Lemma bind_inv m f s t s' r :
  bind m f s = (t, s', r) →
  (∃ e, m s = (t, s', inl e) ∧ r = inl e)
  ∨ (∃ t1 s1 a t2, m s = (t1, s1, inr a) ∧ f a s1 = (t2, s', r) ∧ t = t1 ++ t2).
Proof.
  unfold bind. destruct (m s) as [[t1 s1] [e|a]].
  - intros [= <- <- <-]. left. eauto.
  - destruct (f a s1) as [[t2 s2] r2] eqn:E. intros [= <- <- <-].
    right. eauto 10.
Qed.

Lemma bind_step m f s t1 s1 a t2 s2 r :
  m s = (t1, s1, inr a) → f a s1 = (t2, s2, r) → bind m f s = (t1 ++ t2, s2, r).
Proof. intros H1 H2. unfold bind. rewrite H1, H2. reflexivity. Qed.
End Monad.

Lemma glob_length (s : machine) : length (glob s) = length s.
Proof. rewrite (glob_perm s). apply length_seq. Qed.

Lemma glob_elem (s : machine) c : c ∈ glob s ↔ (c < length s)%nat.
Proof. rewrite (glob_perm s), elem_of_seq. lia. Qed.

Lemma readmsr_inv msr cpu s t s' r :
  readmsr msr cpu s = (t, s', r) →
  s' = s ∧ ((∃ v, s !! cpu ≫= (λ bank : gmap Z Z, bank !! msr) = Some v
                  ∧ t = [EvRead cpu msr v] ∧ r = inr v)
            ∨ (t = [] ∧ r = inl OSError)).
Proof.
  unfold readmsr. destruct (s !! cpu ≫= _) as [v|].
  - intros [= <- <- <-]. eauto 10.
  - intros [= <- <- <-]. eauto.
Qed.

Lemma readmsr_ok msr cpu s v :
  s !! cpu ≫= (λ bank : gmap Z Z, bank !! msr) = Some v →
  readmsr msr cpu s = ([EvRead cpu msr v], s, inr v).
Proof. intros H. unfold readmsr. rewrite H. reflexivity. Qed.

Lemma u64b_spec v : u64b v = true ↔ is_u64 v.
Proof. unfold u64b, is_u64. lia. Qed.

Lemma write_one_inv msr val cpu s t s' r :
  write_one msr val cpu s = (t, s', r) →
  length s' = length s
  ∧ ((t = [EvWrite cpu msr val] ∧ r = inr tt ∧ is_u64 val)
     ∨ (t = [] ∧ r = inl OSError ∧ s' = s)).
Proof.
  unfold write_one. destruct (s !! cpu) as [bank|].
  - destruct (u64b val && _) eqn:E.
    + intros [= <- <- <-]. rewrite length_insert.
      apply andb_true_iff in E as [E _]. apply u64b_spec in E. eauto 10.
    + intros [= <- <- <-]. eauto 10.
  - intros [= <- <- <-]. eauto 10.
Qed.

Lemma write_one_bad msr val cpu s :
  ¬ is_u64 val → write_one msr val cpu s = ([], s, inl OSError).
Proof.
  intros H. unfold write_one. destruct (s !! cpu); [|reflexivity].
  destruct (u64b val) eqn:E; [|reflexivity].
  apply u64b_spec in E. contradiction.
Qed.

Section ForEach.
Context {A : Type} (body : A → M unit).

Lemma for_each_inv (P : event → Prop) (Q : A → event → Prop) :
  (∀ x s t s' r, body x s = (t, s', r) →
     Forall P t ∧ (r = inr tt → ∃ e, e ∈ t ∧ Q x e)) →
  ∀ l s t s' r, for_each l body s = (t, s', r) →
     Forall P t ∧ (r = inr tt → ∀ x, x ∈ l → ∃ e, e ∈ t ∧ Q x e).
Proof.
  intros Hbody. induction l as [|x l IH]; intros s t s' r H; simpl in H.
  - injection H as <- <- <-. split; [constructor|]. intros _ x Hx.
    apply elem_of_nil in Hx as [].
  - apply bind_inv in H as [(e & H & ->)|(t1 & s1 & [] & t2 & H1 & H2 & ->)].
    + apply Hbody in H as [HP _]. split; [exact HP|discriminate].
    + apply Hbody in H1 as [HP1 HQ1]. apply IH in H2 as [HP2 HQ2].
      split; [apply Forall_app; auto|].
      intros -> y Hy. apply elem_of_cons in Hy as [->|Hy].
      * destruct (HQ1 eq_refl) as (e & He & HQ). exists e.
        split; [apply elem_of_app; auto|exact HQ].
      * destruct (HQ2 eq_refl y Hy) as (e & He & HQ). exists e.
        split; [apply elem_of_app; auto|exact HQ].
Qed.

Lemma for_each_length :
  (∀ x s t s' r, body x s = (t, s', r) → length s' = length s) →
  ∀ l s t s' r, for_each l body s = (t, s', r) → length s' = length s.
Proof.
  intros Hbody. induction l as [|x l IH]; intros s t s' r H; simpl in H.
  - injection H as <- <- <-. reflexivity.
  - apply bind_inv in H as [(e & H & ->)|(t1 & s1 & [] & t2 & H1 & H2 & ->)].
    + eauto.
    + apply Hbody in H1. apply IH in H2. congruence.
Qed.
End ForEach.

Lemma for_each_write_bad msr val (l : list nat) s :
  ¬ is_u64 val →
  for_each l (write_one msr val) s
  = ([], s, match l with [] => inr tt | _ => inl OSError end).
Proof.
  intros H. destruct l as [|c l]; [reflexivity|]. simpl.
  apply bind_err, write_one_bad, H.
Qed.

(* ===================================================================== *)
(** ** Traces of the mutation block *)
(* ===================================================================== *)

Lemma edit_fields_spec a old s :
  ∃ t, edit_fields a old s = (t, s, edited a old) ∧ Forall (λ e, is_print e = true) t.
Proof.
  unfold edit_fields, edited.
  destruct (args.enable a), (args.disable a), (0 <=? args.fid a),
    (0 <=? args.did a), (0 <=? args.vid a), (PrimFloat.leb 0 (args.vcore a));
    try destruct (vcore_to_vid (args.vcore a));
    cbv [bind ret print lift app]; eexists; (split; [reflexivity|]);
    repeat constructor.
Qed.

Lemma lock_precedes_no_write n addr t :
  Forall (λ e, writes_to addr e = false) t → lock_precedes n addr t.
Proof.
  intros H i c' v' Hi. rewrite Forall_lookup in H. apply H in Hi.
  simpl in Hi. rewrite Z.eqb_refl in Hi. discriminate.
Qed.

Lemma lock_precedes_app_pre n addr pre t :
  Forall (λ e, writes_to addr e = false) pre →
  lock_precedes n addr t → lock_precedes n addr (pre ++ t).
Proof.
  intros Hpre H i c' v' Hi c Hc.
  apply lookup_app_Some in Hi as [Hi|[Hle Hi]].
  - rewrite Forall_lookup in Hpre. apply Hpre in Hi.
    simpl in Hi. rewrite Z.eqb_refl in Hi. discriminate.
  - destruct (H _ _ _ Hi c Hc) as (j & v & Hj & Hjv & Hbit).
    exists (length pre + j)%nat, v. split; [lia|]. split; [|exact Hbit].
    rewrite lookup_app_r by lia. rewrite <- Hjv. f_equal. lia.
Qed.

Lemma lock_precedes_app_locked n addr t1 t2 :
  Forall (λ e, writes_to addr e = false) t1 →
  (∀ c, (c < n)%nat → ∃ v, EvWrite c TSC_LOCK v ∈ t1 ∧ Z.testbit v 21 = true) →
  lock_precedes n addr (t1 ++ t2).
Proof.
  intros Hno Hall i c' v' Hi c Hc.
  apply lookup_app_Some in Hi as [Hi|[Hle Hi]].
  - rewrite Forall_lookup in Hno. apply Hno in Hi.
    simpl in Hi. rewrite Z.eqb_refl in Hi. discriminate.
  - destruct (Hall c Hc) as (v & Hin & Hbit).
    apply list_elem_of_lookup in Hin as [j Hj].
    exists j, v. split; [apply lookup_lt_Some in Hj; lia|].
    split; [|exact Hbit]. apply lookup_app_l_Some. exact Hj.
Qed.

Lemma testbit_lor_bit v k : 0 <= k → Z.testbit (Z.lor v (Z.shiftl 1 k)) k = true.
Proof.
  intros Hk. rewrite Z.lor_spec, Z.shiftl_1_l, Z.pow2_bits_true by lia.
  apply orb_true_r.
Qed.

Lemma lock_bit_clear lock :
  (Z.land lock (Z.shiftl 1 21) =? 0) = negb (Z.testbit lock 21).
Proof. rewrite <- (bit_test lock 21) by lia. rewrite negb_involutive. reflexivity. Qed.

(** The body of the TSC-lock loop. *)
Lemma lock_body_spec c s t s' r :
  (v <- readmsr TSC_LOCK c ;;
   writemsr TSC_LOCK (Z.lor v (Z.shiftl 1 21)) (Some c)) s = (t, s', r) →
  Forall (λ e, on_register TSC_LOCK e = true) t
  ∧ (r = inr tt → ∃ e, e ∈ t ∧ ∃ v, e = EvWrite c TSC_LOCK v ∧ Z.testbit v 21 = true).
Proof.
  intros H.
  apply bind_inv in H as [(e & H & ->)|(t1 & s1 & v & t2 & H1 & H2 & ->)].
  - apply readmsr_inv in H as [_ [(v & _ & _ & [=])|[-> _]]].
    split; [constructor|discriminate].
  - apply readmsr_inv in H1 as [-> [(v' & _ & -> & [= <-])|[_ [=]]]].
    simpl in H2. apply write_one_inv in H2 as [_ [(-> & -> & _)|(-> & -> & _)]].
    + split; [repeat constructor; simpl; apply Z.eqb_refl|].
      intros _. eexists. split; [apply elem_of_app; right; apply list_elem_of_here|].
      eexists. split; [reflexivity|]. apply testbit_lor_bit. lia.
    + split; [repeat constructor; simpl; apply Z.eqb_refl|discriminate].
Qed.

Lemma lock_body_length c s t s' r :
  (v <- readmsr TSC_LOCK c ;; writemsr TSC_LOCK (Z.lor v (Z.shiftl 1 21)) (Some c)) s
  = (t, s', r) → length s' = length s.
Proof.
  intros H.
  apply bind_inv in H as [(e & H & ->)|(t1 & s1 & v & t2 & H1 & H2 & ->)].
  - apply readmsr_inv in H as [-> _]. reflexivity.
  - apply readmsr_inv in H1 as [-> _]. simpl in H2.
    apply write_one_inv in H2 as [-> _]. reflexivity.
Qed.

(** The broadcast write. *)
Lemma broadcast_spec msr val s t s' r :
  writemsr msr val None s = (t, s', r) →
  Forall (λ e, ∃ c, e = EvWrite c msr val) t
  ∧ length s' = length s
  ∧ (r = inr tt → ∀ c, (c < length s)%nat → EvWrite c msr val ∈ t)
  ∧ (¬ is_u64 val → t = [] ∧ s' = s).
Proof.
  intros H. simpl in H. unfold cpu_devices in H.
  apply bind_inv in H as [(e & [=] & _)|(t1 & s1 & n & t2 & [= <- <- <-] & H2 & ->)].
  simpl. split; [|split; [|split]].
  - eapply (for_each_inv _ (λ e, ∃ c, e = EvWrite c msr val) (λ _ _, True)) in H2 as [HP _];
      [exact HP|].
    intros x s0 t0 s0' r0 H0.
    apply write_one_inv in H0 as [_ [(-> & -> & _)|(-> & -> & _)]].
    + split; [repeat constructor; eauto|]. intros _. eexists. split; [apply list_elem_of_here|done].
    + split; [constructor|discriminate].
  - eapply for_each_length in H2; [exact H2|].
    intros x s0 t0 s0' r0 H0. apply write_one_inv in H0 as [H0 _]. exact H0.
  - intros -> c Hc.
    eapply (for_each_inv _ (λ _, True) (λ c e, e = EvWrite c msr val)) in H2 as [_ HQ].
    + destruct (HQ eq_refl c) as (e & He & ->); [apply glob_elem, Hc|exact He].
    + intros x s0 t0 s0' r0 H0.
      apply write_one_inv in H0 as [_ [(-> & -> & _)|(-> & -> & _)]].
      * split; [repeat constructor|]. intros _. eexists. split; [apply list_elem_of_here|done].
      * split; [constructor|discriminate].
  - intros Hbad. rewrite for_each_write_bad in H2 by exact Hbad.
    injection H2 as <- <- _. done.
Qed.

Lemma lock_tsc_spec s t s' r :
  lock_tsc s = (t, s', r) →
  Forall (λ e, is_print e = true ∨ on_register TSC_LOCK e = true) t
  ∧ length s' = length s
  ∧ (r = inr tt → ∀ c, (c < length s)%nat →
       ∃ v, EvWrite c TSC_LOCK v ∈ t ∧ Z.testbit v 21 = true).
Proof.
  intros H. unfold lock_tsc in H.
  apply bind_inv in H as [(e & [=] & _)|(t1 & s1 & [] & t2 & [= <- <-] & H & ->)].
  unfold ncpus in H.
  apply bind_inv in H as [(e & [=] & _)|(t1 & s1 & n & t3 & [= <- <- <-] & H & ->)].
  simpl. split; [|split].
  - constructor; [left; reflexivity|].
    eapply for_each_inv in H as [HP _]; [|apply lock_body_spec].
    eapply Forall_impl; [exact HP|]. simpl. auto.
  - eapply for_each_length in H; [exact H|]. apply lock_body_length.
  - intros -> c Hc.
    eapply for_each_inv in H as [_ HQ]; [|apply lock_body_spec].
    destruct (HQ eq_refl c) as (e & He & v & -> & Hbit);
      [apply elem_of_seq; rewrite glob_length; lia|].
    exists v. split; [apply elem_of_cons; right; exact He|exact Hbit].
Qed.

Lemma write_new_spec p addr new s t s' r :
  write_new p addr new s = (t, s', r) →
  Forall (λ e, is_print e = true ∨ ∃ c, e = EvWrite c addr new) t
  ∧ length s' = length s
  ∧ (r = inr tt → ∀ c, (c < length s)%nat → EvWrite c addr new ∈ t)
  ∧ (¬ is_u64 new → Forall (λ e, is_print e = true) t ∧ s' = s
                    ∧ ((0 < length s)%nat → ∃ e, r = inl e)).
Proof.
  intros H. unfold write_new, lift, print in H.
  apply bind_inv in H as [(e & [= <- <- ?] & ->)|(t1 & s1 & d & t2 & [= <- <- Hd] & H & ->)].
  { split; [constructor|]. split; [reflexivity|]. split; [discriminate|].
    intros _. split; [constructor|]. split; [reflexivity|]. eauto. }
  apply bind_inv in H as [(e & [=] & _)|(t1 & s1 & [] & t3 & [= <- <-] & H & ->)].
  pose proof (broadcast_spec _ _ _ _ _ _ H) as (HP & Hlen & Hall & Hbad).
  simpl. split; [|split; [|split]].
  - constructor; [left; reflexivity|]. eapply Forall_impl; [exact HP|]. simpl. auto.
  - exact Hlen.
  - intros Hr c Hc. apply elem_of_cons. right. auto.
  - intros Hnew. destruct (Hbad Hnew) as [-> ->].
    split; [repeat constructor|]. split; [reflexivity|].
    intros Hpos. simpl in H. unfold cpu_devices in H.
    rewrite (bind_ok _ _ _ [] s (glob s)) in H by reflexivity.
    rewrite for_each_write_bad in H by exact Hnew.
    rewrite <- glob_length in Hpos.
    destruct (glob s); [simpl in Hpos; lia|]. simpl in H. injection H as <-. eauto.
Qed.

(** The structure of a run of [commit] that has something to write. *)
Lemma commit_inv p addr old new s t s' r :
  new ≠ old → commit p addr old new s = (t, s', r) →
  (s !! 0%nat ≫= (λ bank : gmap Z Z, bank !! TSC_LOCK) = None
   ∧ t = [] ∧ s' = s ∧ r = inl OSError)
  ∨ ∃ lock tl s1 rl,
      s !! 0%nat ≫= (λ bank : gmap Z Z, bank !! TSC_LOCK) = Some lock
      ∧ when (negb (Z.testbit lock 21)) lock_tsc s = (tl, s1, rl)
      ∧ ((∃ e, rl = inl e ∧ r = inl e ∧ s' = s1 ∧ t = EvRead 0 TSC_LOCK lock :: tl)
         ∨ (rl = inr tt ∧ ∃ tr, write_new p addr new s1 = (tr, s', r)
                                ∧ t = EvRead 0 TSC_LOCK lock :: tl ++ tr)).
Proof.
  intros Hne H. unfold commit in H.
  replace (new =? old) with false in H by lia. simpl in H.
  apply bind_inv in H as [(e & H & ->)|(t1 & s1 & lock & t2 & H1 & H & ->)].
  - left. unfold readmsr in H. destruct (s !! 0%nat ≫= _); [discriminate|].
    injection H as <- <- <-. done.
  - right. unfold readmsr in H1.
    destruct (s !! 0%nat ≫= _) as [v|] eqn:E; [|discriminate].
    injection H1 as <- <- <-. rewrite lock_bit_clear in H.
    exists v.
    apply bind_inv in H as [(e & H & ->)|(tl & s2 & [] & tr & H1 & H & ->)].
    + exists t2, s', (inl e). split; [reflexivity|]. split; [exact H|].
      left. exists e. done.
    + exists tl, s2, (inr tt). split; [reflexivity|]. split; [exact H1|].
      right. split; [reflexivity|]. exists tr. done.
Qed.

Lemma pstates_lookup i addr :
  pstates !! i = Some addr → 0xC0010064 <= addr < 0xC001006C.
Proof.
  unfold pstates, range. rewrite list_lookup_fmap.
  destruct (seq 0 _ !! i) as [k|] eqn:E; [|discriminate].
  apply lookup_seq in E as [-> Hlt]. intros [= <-].
  change (Z.to_nat (0xC001006C - 0xC0010064)) with 8%nat in Hlt. lia.
Qed.

(** The structure of a run of the mutation block. *)
Lemma pstate_block_inv a s addr t s' r :
  0 <= args.pstate a → pstates !! Z.to_nat (args.pstate a) = Some addr →
  pstate_block a s = (t, s', r) →
  (s !! 0%nat ≫= (λ bank : gmap Z Z, bank !! addr) = None
   ∧ t = [] ∧ s' = s ∧ r = inl OSError)
  ∨ ∃ old, s !! 0%nat ≫= (λ bank : gmap Z Z, bank !! addr) = Some old
     ∧ ((∃ e, pstate2str old = inl e ∧ t = [EvRead 0 addr old] ∧ s' = s ∧ r = inl e)
        ∨ ∃ d te, pstate2str old = inr d
            ∧ edit_fields a old s = (te, s, edited a old)
            ∧ Forall (λ e, is_print e = true) te
            ∧ ((∃ e, edited a old = inl e ∧ s' = s ∧ r = inl e
                     ∧ t = [EvRead 0 addr old; EvPrint (OutCurrent (args.pstate a) d)] ++ te)
               ∨ ∃ new tc, edited a old = inr new
                   ∧ commit (args.pstate a) addr old new s = (tc, s', r)
                   ∧ t = [EvRead 0 addr old; EvPrint (OutCurrent (args.pstate a) d)]
                         ++ te ++ tc)).
Proof.
  intros Hp Haddr H. unfold pstate_block, pstates_at in H.
  replace (0 <=? args.pstate a) with true in H by lia. rewrite Haddr in H.
  simpl in H. unfold ret at 1 in H.
  rewrite (bind_ok _ _ _ [] s addr) in H by reflexivity.
  destruct (bind _ _ s) as [[t0 s0] r0] eqn:H0. simpl in H.
  injection H as <- <- <-.
  apply bind_inv in H0 as [(e & H & ->)|(t1 & s1 & old & t2 & H1 & H & ->)].
  { left. unfold readmsr in H. destruct (s !! 0%nat ≫= _); [discriminate|].
    injection H as <- <- <-. done. }
  right. unfold readmsr in H1.
  destruct (s !! 0%nat ≫= _) as [v|] eqn:E; [|discriminate].
  injection H1 as <- <- <-. exists v. split; [reflexivity|].
  unfold lift in H.
  apply bind_inv in H as [(e & [= <- <- Hd] & ->)|(t1 & s1 & d & t3 & [= <- <- Hd] & H & ->)].
  { left. exists e. done. }
  right. exists d.
  apply bind_inv in H as [(e & [=] & _)|(t1 & s1 & [] & t4 & [= <- <-] & H & ->)].
  destruct (edit_fields_spec a v s) as (te & Hte & Hprints).
  exists te. split; [exact Hd|]. split; [exact Hte|]. split; [exact Hprints|].
  apply bind_inv in H as [(e & H & ->)|(t1 & s1 & new & tc & H1 & H & ->)].
  - left. rewrite Hte in H. injection H as <- <- He. exists e. done.
  - right. rewrite Hte in H1. injection H1 as <- <- He. exists new, tc. done.
Qed.

Lemma prints_no_write msr t :
  Forall (λ e, is_print e = true) t → Forall (λ e, writes_to msr e = false) t.
Proof.
  intros H. eapply Forall_impl; [exact H|].
  intros [] He; simpl in *; congruence.
Qed.

Lemma commit_same p addr old s : commit p addr old old s = ([], s, inr tt).
Proof. unfold commit. rewrite Z.eqb_refl. reflexivity. Qed.

Lemma when_lock_spec (b : bool) s t s' r :
  when b lock_tsc s = (t, s', r) →
  Forall (λ e, is_print e = true ∨ on_register TSC_LOCK e = true) t
  ∧ length s' = length s
  ∧ (b = false → t = [])
  ∧ (b = true → r = inr tt → ∀ c, (c < length s)%nat →
       ∃ v, EvWrite c TSC_LOCK v ∈ t ∧ Z.testbit v 21 = true).
Proof.
  destruct b; simpl.
  - intros H. apply lock_tsc_spec in H as (H1 & H2 & H3).
    repeat split; [exact H1|exact H2|discriminate|auto].
  - intros [= <- <- <-]. repeat split; [constructor|discriminate].
Qed.

Lemma commit_spec p addr old new s lock t s' r :
  addr ≠ TSC_LOCK →
  s !! 0%nat ≫= (λ bank : gmap Z Z, bank !! TSC_LOCK) = Some lock →
  commit p addr old new s = (t, s', r) →
  (Z.testbit lock 21 = false → lock_precedes (length s) addr t)
  ∧ (Z.testbit lock 21 = true → Forall (λ e, writes_to TSC_LOCK e = false) t)
  ∧ (new ≠ old → r = inr tt → ∀ c, (c < length s)%nat → EvWrite c addr new ∈ t).
Proof.
  intros Haddr Hlock H.
  destruct (Z.eq_dec new old) as [->|Hne].
  { rewrite commit_same in H. injection H as <- <- <-.
    split; [intros _; apply lock_precedes_no_write; constructor|].
    split; [constructor|]. congruence. }
  apply commit_inv in H as [(Hnone & _)|(lock' & tl & s1 & rl & Hl & Hwhen & Hrest)];
    [congruence | | exact Hne].
  rewrite Hlock in Hl. injection Hl as <-.
  apply when_lock_spec in Hwhen as (Htl & Hlen & Hskip & Hlocked).
  assert (Hnw : Forall (λ e, writes_to addr e = false) (EvRead 0 TSC_LOCK lock :: tl)).
  { constructor; [reflexivity|]. eapply Forall_impl; [exact Htl|].
    intros [c m v|c m v|o] [He|He]; simpl in *; try congruence.
    destruct (Z.eqb_spec m addr); [|reflexivity]. subst m.
    apply Z.eqb_eq in He. contradiction. }
  destruct Hrest as [(e & -> & -> & -> & ->)|(-> & tr & Hw & ->)].
  - split; [intros _; apply lock_precedes_no_write; exact Hnw|].
    split; [|discriminate].
    intros Hbit. rewrite Hskip by (rewrite Hbit; reflexivity). repeat constructor.
  - apply write_new_spec in Hw as (Htr & Hlen' & Hall & _).
    split; [|split].
    + intros Hbit. rewrite app_comm_cons.
      apply lock_precedes_app_locked; [exact Hnw|].
      intros c Hc. destruct (Hlocked ltac:(rewrite Hbit; reflexivity) eq_refl c Hc)
        as (v & Hin & Hv).
      exists v. split; [apply elem_of_cons; right; exact Hin|exact Hv].
    + intros Hbit. rewrite Hskip by (rewrite Hbit; reflexivity). simpl.
      constructor; [reflexivity|]. eapply Forall_impl; [exact Htr|].
      intros ev [He|(c & ->)]; [destruct ev; simpl in *; congruence|].
      simpl. apply Z.eqb_neq. exact Haddr.
    + intros _ -> c Hc. apply elem_of_cons. right. apply elem_of_app. right.
      apply Hall; [reflexivity|lia].
Qed.

(** Claim C2 (TSC-lock ordering).  In every run of the mutation block, with
    [lock] the value of the TSC-lock register on CPU 0: if bit 21 of [lock]
    is clear, every write to the P-State register in the trace comes
    strictly after a write, to each discovered CPU, of a value with bit 21
    set to the TSC-lock register; if bit 21 is set, the trace has no write
    to the TSC-lock register.  When the edited value differs from the old
    one and the block ends normally, the new value is written to the
    P-State register of every CPU. *)
Theorem tsc_lock_ordering (a : args.t) (s : machine) (addr lock : Z)
    (t : list event) (s' : machine) (r : exn + unit) :
  0 <= args.pstate a →
  pstates !! Z.to_nat (args.pstate a) = Some addr →
  s !! 0%nat ≫= (λ bank : gmap Z Z, bank !! TSC_LOCK) = Some lock →
  pstate_block a s = (t, s', r) →
  (Z.testbit lock 21 = false → lock_precedes (length s) addr t)
  ∧ (Z.testbit lock 21 = true → Forall (λ e, writes_to TSC_LOCK e = false) t)
  ∧ (∀ old new te,
       s !! 0%nat ≫= (λ bank : gmap Z Z, bank !! addr) = Some old →
       edit_fields a old s = (te, s, inr new) → new ≠ old → r = inr tt →
       ∀ c, (c < length s)%nat → EvWrite c addr new ∈ t).
Proof.
  intros Hp Haddr Hlock H.
  assert (addr ≠ TSC_LOCK) as Hneq
    by (apply pstates_lookup in Haddr; unfold TSC_LOCK; lia).
  apply (pstate_block_inv a s addr) in H
    as [(_ & -> & _ & ->)|(old & Hold & [(e & _ & -> & _ & ->)|(d & te & _ & Hte & Hpr & H)])];
    [| | |exact Hp|exact Haddr].
  - split; [intros _; apply lock_precedes_no_write; constructor|].
    split; [constructor|discriminate].
  - split; [intros _; apply lock_precedes_no_write; repeat constructor|].
    split; [repeat constructor|discriminate].
  - destruct H as [(e & _ & _ & -> & ->)|(new & tc & Hnew & Hc & ->)].
    + split; [intros _; apply lock_precedes_no_write|split; [intros _|discriminate]];
        (apply Forall_app; split; [repeat constructor|apply prints_no_write, Hpr]).
    + apply (commit_spec _ _ _ _ _ lock) in Hc as (Hord & Hset & Hlive);
        [|exact Hneq|exact Hlock].
      assert (∀ m, Forall (λ e, writes_to m e = false)
                ([EvRead 0 addr old; EvPrint (OutCurrent (args.pstate a) d)] ++ te))
        as Hpre
        by (intros m; apply Forall_app; split;
            [repeat constructor|apply prints_no_write, Hpr]).
      split; [|split].
      * intros Hbit. rewrite app_assoc. apply lock_precedes_app_pre; auto.
      * intros Hbit. rewrite app_assoc. apply Forall_app. auto.
      * intros old' new' te' Hold' Hte' Hne Hr c Hc.
        rewrite Hold in Hold'. injection Hold' as <-.
        rewrite Hte in Hte'. injection Hte' as _ Hed.
        rewrite Hnew in Hed. injection Hed as <-.
        apply elem_of_app. right. apply elem_of_app. right. auto.
Qed.

(** Claim C4 (no-op mutation).  When the edits give back the value read, the
    block leaves the machine as it was, and its trace holds no write at all
    and no access, read or write, to the TSC-lock register: only the read of
    the P-State register and prints. *)
Theorem noop_mutation_writes_nothing (a : args.t) (s : machine) (addr old : Z)
    (te : list event) (se : machine) :
  0 <= args.pstate a →
  pstates !! Z.to_nat (args.pstate a) = Some addr →
  s !! 0%nat ≫= (λ bank : gmap Z Z, bank !! addr) = Some old →
  edit_fields a old s = (te, se, inr old) →
  ∃ t r, pstate_block a s = (t, s, r)
    ∧ Forall (λ e, is_write e = false ∧ on_register TSC_LOCK e = false) t
    ∧ (∀ d, pstate2str old = inr d →
         r = inr tt
         ∧ t = [EvRead 0 addr old; EvPrint (OutCurrent (args.pstate a) d)] ++ te).
Proof.
  intros Hp Haddr Hold Hed.
  assert (addr ≠ TSC_LOCK) as Hneq
    by (apply pstates_lookup in Haddr; unfold TSC_LOCK; lia).
  destruct (pstate_block a s) as [[t s'] r] eqn:H.
  apply (pstate_block_inv a s addr) in H
    as [(Hnone & _)|(old' & Hold' & [(e & He & -> & -> & ->)|(d & te' & Hd & Hte & Hpr & H)])];
    [congruence| | |exact Hp|exact Haddr];
    rewrite Hold in Hold'; injection Hold' as <-.
  - exists [EvRead 0 addr old], (inl e). split; [reflexivity|].
    split; [|intros d Hd; congruence].
    repeat constructor. simpl. apply Z.eqb_neq. exact Hneq.
  - rewrite Hed in Hte. injection Hte as <- <- Hnew.
    destruct H as [(e & He & _)|(new & tc & Hnew' & Hc & ->)]; [congruence|].
    rewrite <- Hnew in Hnew'. injection Hnew' as <-.
    rewrite commit_same in Hc. injection Hc as <- <- <-.
    eexists _, _. split; [reflexivity|]. rewrite app_nil_r. split.
    + apply Forall_app. split.
      * repeat constructor. simpl. apply Z.eqb_neq. exact Hneq.
      * eapply Forall_impl; [exact Hpr|]. intros [] He; simpl in *; done.
    + intros d' Hd'. rewrite Hd in Hd'. injection Hd' as <-. done.
Qed.

(* ===================================================================== *)
(** ** The C6 toggle *)
(* ===================================================================== *)

Lemma write_one_ok msr val (s : machine) c bank :
  is_u64 val → s !! c = Some bank → is_Some (bank !! msr) →
  write_one msr val c s
  = ([EvWrite c msr val], <[c := <[msr := val]> bank]> s, inr tt).
Proof.
  intros Hval Hc Hmsr. unfold write_one. rewrite Hc.
  apply u64b_spec in Hval. rewrite Hval, bool_decide_eq_true_2 by exact Hmsr.
  reflexivity.
Qed.

(** Writing the CPUs of [l], in the order of [l]: the banks of these CPUs
    are updated, the others are left alone. *)
Lemma for_each_write_ok msr val (l : list nat) (s : machine) :
  is_u64 val →
  Forall (λ bank : gmap Z Z, is_Some (bank !! msr)) s →
  Forall (λ c, (c < length s)%nat) l →
  ∃ s', for_each l (write_one msr val) s
        = ((λ c, EvWrite c msr val) <$> l, s', inr tt)
    ∧ ∀ i, s' !! i = if decide (i ∈ l)
                     then (λ bank : gmap Z Z, <[msr := val]> bank) <$> s !! i
                     else s !! i.
Proof.
  intros Hval. revert s. induction l as [|c l IH]; intros s Hall Hl.
  - exists s. split; [reflexivity|]. intros i.
    rewrite decide_False by apply not_elem_of_nil. reflexivity.
  - apply Forall_cons in Hl as [Hc Hl].
    destruct (lookup_lt_is_Some_2 s c Hc) as [bank Hbank].
    assert (is_Some (bank !! msr)) as Hmsr
      by (rewrite Forall_lookup in Hall; exact (Hall c bank Hbank)).
    set (s1 := <[c := <[msr := val]> bank]> s).
    destruct (IH s1) as (s' & Hrun & Hs').
    { apply Forall_insert; [exact Hall|]. rewrite lookup_insert_eq. eauto. }
    { unfold s1. rewrite length_insert. exact Hl. }
    exists s'. split.
    + simpl.
      rewrite (bind_step _ _ _ _ _ _ _ _ _
                 (write_one_ok msr val s c bank Hval Hbank Hmsr) Hrun).
      reflexivity.
    + intros i. rewrite Hs'. unfold s1.
      destruct (decide (i = c)) as [->|Hne].
      * rewrite list_lookup_insert_eq by exact Hc.
        rewrite (decide_True (P := c ∈ c :: l)) by apply list_elem_of_here.
        rewrite Hbank. simpl.
        destruct (decide (c ∈ l)); [rewrite insert_insert_eq|]; reflexivity.
      * rewrite list_lookup_insert_ne by congruence.
        destruct (decide (i ∈ l)) as [Hin|Hnin].
        -- rewrite decide_True by (apply list_elem_of_further, Hin). reflexivity.
        -- rewrite decide_False; [reflexivity|].
           intros Hin. apply elem_of_cons in Hin as [?|?]; contradiction.
Qed.

(** A broadcast that every CPU accepts: one write per CPU, in the order of
    the glob, and the value is in every bank. *)
Lemma writemsr_all_ok msr val (s : machine) :
  is_u64 val → Forall (λ bank : gmap Z Z, is_Some (bank !! msr)) s →
  writemsr msr val None s
  = ((λ c, EvWrite c msr val) <$> glob s,
     (λ bank : gmap Z Z, <[msr := val]> bank) <$> s, inr tt).
Proof.
  intros Hval Hall. simpl. unfold cpu_devices.
  rewrite (bind_ok _ _ _ [] s (glob s)) by reflexivity.
  destruct (for_each_write_ok msr val (glob s) s Hval Hall) as (s' & Hrun & Hs').
  { apply Forall_forall. intros c Hc. apply glob_elem, Hc. }
  rewrite Hrun. simpl. do 2 f_equal.
  apply list_eq. intros i. rewrite Hs', list_lookup_fmap.
  destruct (decide (i ∈ glob s)) as [Hin|Hnin]; [reflexivity|].
  rewrite glob_elem in Hnin.
  rewrite (lookup_ge_None_2 s i) by lia. reflexivity.
Qed.

Lemma is_u64_bits x :
  is_u64 x ↔ 0 <= x ∧ ∀ n, 64 <= n → Z.testbit x n = false.
Proof.
  unfold is_u64. split.
  - intros H. split; [lia|]. intros n Hn. apply (testbit_small x 64); lia.
  - intros [H0 Hbits]. split; [lia|].
    assert (Z.land x (Z.ones 64) = x) as E.
    { apply Z.bits_inj'. intros n Hn.
      rewrite Z.land_spec, Z.testbit_ones by lia.
      destruct (Z.ltb_spec n 64).
      - replace (0 <=? n) with true by lia. apply andb_true_r.
      - rewrite Hbits by lia. reflexivity. }
    rewrite Z.land_ones in E by lia.
    rewrite <- E. apply Z.mod_pos_bound. lia.
Qed.

Lemma is_u64_lor x y : is_u64 x → is_u64 y → is_u64 (Z.lor x y).
Proof.
  rewrite !is_u64_bits. intros [Hx Hxb] [Hy Hyb]. split.
  - apply Z.lor_nonneg. lia.
  - intros n Hn. rewrite Z.lor_spec, Hxb, Hyb by lia. reflexivity.
Qed.

Lemma is_u64_land x y : is_u64 x → is_u64 (Z.land x y).
Proof.
  rewrite !is_u64_bits. intros [Hx Hxb]. split.
  - apply Z.land_nonneg. lia.
  - intros n Hn. rewrite Z.land_spec, Hxb by lia. reflexivity.
Qed.

Lemma testbit_shiftl_1 k n : 0 <= k → Z.testbit (Z.shiftl 1 k) n = (n =? k).
Proof.
  intros Hk. destruct (Z.le_gt_cases 0 n).
  - rewrite Z.shiftl_1_l, Z.pow2_bits_eqb by lia. apply Z.eqb_sym.
  - rewrite Z.testbit_neg_r by lia. symmetry. apply Z.eqb_neq. lia.
Qed.

Lemma testbit_c6_core_bits n :
  Z.testbit c6_core_bits n = (n =? 6) || (n =? 14) || (n =? 22).
Proof.
  unfold c6_core_bits. rewrite !Z.lor_spec, !testbit_shiftl_1 by lia.
  destruct (n =? 6), (n =? 14), (n =? 22); reflexivity.
Qed.

Lemma testbit_clear v mask n :
  Z.testbit (Z.land v (Z.lnot mask)) n = negb (Z.testbit mask n) && Z.testbit v n.
Proof.
  destruct (Z.le_gt_cases 0 n).
  - rewrite Z.land_spec, Z.lnot_spec by lia. apply andb_comm.
  - rewrite !Z.testbit_neg_r by lia. reflexivity.
Qed.

Lemma read_after_write (s : machine) msr msr' val v :
  msr ≠ msr' →
  s !! 0%nat ≫= (λ bank : gmap Z Z, bank !! msr') = Some v →
  ((λ bank : gmap Z Z, <[msr := val]> bank) <$> s) !! 0%nat
    ≫= (λ bank : gmap Z Z, bank !! msr') = Some v.
Proof.
  intros Hne H. apply bind_Some in H as (bank & Hs & Hb).
  rewrite list_lookup_fmap, Hs. simpl. rewrite lookup_insert_ne by exact Hne. exact Hb.
Qed.

Lemma implemented_after_write (s : machine) msr msr' val :
  Forall (λ bank : gmap Z Z, is_Some (bank !! msr')) s →
  Forall (λ bank : gmap Z Z, is_Some (bank !! msr'))
         ((λ bank : gmap Z Z, <[msr := val]> bank) <$> s).
Proof.
  intros H. apply Forall_fmap. eapply Forall_impl; [exact H|].
  intros bank Hb. simpl. destruct (decide (msr = msr')) as [->|Hne].
  - rewrite lookup_insert_eq. eauto.
  - rewrite lookup_insert_ne by exact Hne. exact Hb.
Qed.

(** The two read-modify-write steps shared by the C6 blocks. *)
Lemma c6_steps (s : machine) (P C P' C' : Z) (o : output) :
  s !! 0%nat ≫= (λ bank : gmap Z Z, bank !! C6_PACKAGE) = Some P →
  s !! 0%nat ≫= (λ bank : gmap Z Z, bank !! C6_CORE) = Some C →
  is_u64 P' → is_u64 C' →
  Forall (λ bank : gmap Z Z, is_Some (bank !! C6_PACKAGE)) s →
  Forall (λ bank : gmap Z Z, is_Some (bank !! C6_CORE)) s →
  ∀ (fp fc : Z → Z), fp P = P' → fc C = C' →
  (v <- readmsr C6_PACKAGE 0 ;;
   writemsr C6_PACKAGE (fp v) None ;;;
   v <- readmsr C6_CORE 0 ;;
   writemsr C6_CORE (fc v) None ;;;
   print o) s
  = ([EvRead 0 C6_PACKAGE P]
       ++ ((λ c, EvWrite c C6_PACKAGE P') <$> glob s)
       ++ [EvRead 0 C6_CORE C]
       ++ ((λ c, EvWrite c C6_CORE C')
             <$> glob ((λ bank : gmap Z Z, <[C6_PACKAGE := P']> bank) <$> s))
       ++ [EvPrint o],
     (λ bank : gmap Z Z, <[C6_CORE := C']> (<[C6_PACKAGE := P']> bank)) <$> s,
     inr tt).
Proof.
  intros HP HC HP' HC' Hpkg Hcore fp fc <- <-.
  eapply bind_step; [apply readmsr_ok; exact HP|].
  eapply bind_step; [apply writemsr_all_ok; assumption|].
  eapply bind_step;
    [apply readmsr_ok, read_after_write; [unfold C6_PACKAGE, C6_CORE; lia|exact HC]|].
  eapply bind_step;
    [apply writemsr_all_ok; [assumption|apply implemented_after_write, Hcore]|].
  rewrite <- list_fmap_compose. reflexivity.
Qed.

(** Claim C9 (C6 toggle).  With [P] and [C] the package and core register
    values on CPU 0, enabling C6 writes [P] with bit 32 set and [C] with bits
    6, 14 and 22 set to every CPU, disabling writes them with these bits
    cleared, and every other bit of the written values is the bit of [P] or
    [C]; on [0x0] enabling gives [0x100000000], and disabling that gives
    [0x0].  Each broadcast writes the CPUs once each, in the order in which
    the glob lists them at that call, whatever that order is. *)
Theorem c6_toggle_bits (a : args.t) (s : machine) (P C : Z) :
  s !! 0%nat ≫= (λ bank : gmap Z Z, bank !! C6_PACKAGE) = Some P →
  s !! 0%nat ≫= (λ bank : gmap Z Z, bank !! C6_CORE) = Some C →
  is_u64 P → is_u64 C →
  Forall (λ bank : gmap Z Z, is_Some (bank !! C6_PACKAGE)) s →
  Forall (λ bank : gmap Z Z, is_Some (bank !! C6_CORE)) s →
  let P1 := Z.lor P (Z.shiftl 1 32) in
  let C1 := Z.lor C c6_core_bits in
  let P0 := Z.land P (Z.lnot (Z.shiftl 1 32)) in
  let C0 := Z.land C (Z.lnot c6_core_bits) in
  (args.c6_enable a = true →
     c6_enable_block a s
     = ([EvRead 0 C6_PACKAGE P]
          ++ ((λ c, EvWrite c C6_PACKAGE P1) <$> glob s)
          ++ [EvRead 0 C6_CORE C]
          ++ ((λ c, EvWrite c C6_CORE C1)
                <$> glob ((λ bank : gmap Z Z, <[C6_PACKAGE := P1]> bank) <$> s))
          ++ [EvPrint OutC6Enabling],
        (λ bank : gmap Z Z, <[C6_CORE := C1]> (<[C6_PACKAGE := P1]> bank)) <$> s,
        inr tt))
  ∧ (args.c6_disable a = true →
     c6_disable_block a s
     = ([EvRead 0 C6_PACKAGE P]
          ++ ((λ c, EvWrite c C6_PACKAGE P0) <$> glob s)
          ++ [EvRead 0 C6_CORE C]
          ++ ((λ c, EvWrite c C6_CORE C0)
                <$> glob ((λ bank : gmap Z Z, <[C6_PACKAGE := P0]> bank) <$> s))
          ++ [EvPrint OutC6Disabling],
        (λ bank : gmap Z Z, <[C6_CORE := C0]> (<[C6_PACKAGE := P0]> bank)) <$> s,
        inr tt))
  ∧ (∀ n, Z.testbit P1 n = (n =? 32) || Z.testbit P n)
  ∧ (∀ n, Z.testbit C1 n = (n =? 6) || (n =? 14) || (n =? 22) || Z.testbit C n)
  ∧ (∀ n, Z.testbit P0 n = negb (n =? 32) && Z.testbit P n)
  ∧ (∀ n, Z.testbit C0 n = negb ((n =? 6) || (n =? 14) || (n =? 22)) && Z.testbit C n)
  ∧ Z.lor 0x0 (Z.shiftl 1 32) = 0x100000000
  ∧ Z.land 0x100000000 (Z.lnot (Z.shiftl 1 32)) = 0x0.
Proof.
  intros HP HC HuP HuC Hpkg Hcore P1 C1 P0 C0.
  assert (is_u64 (Z.shiftl 1 32)) as Hb32 by (apply u64b_spec; reflexivity).
  assert (is_u64 c6_core_bits) as Hbc by (apply u64b_spec; reflexivity).
  split; [|split; [|split; [|split; [|split; [|split; [|split]]]]]].
  - intros Hen. unfold c6_enable_block. rewrite Hen. simpl.
    apply (c6_steps s P C P1 C1 OutC6Enabling HP HC
             ltac:(apply is_u64_lor; assumption) ltac:(apply is_u64_lor; assumption)
             Hpkg Hcore
             (λ v, Z.lor v (Z.shiftl 1 32)) (λ v, Z.lor v c6_core_bits)); reflexivity.
  - intros Hdis. unfold c6_disable_block. rewrite Hdis. simpl.
    apply (c6_steps s P C P0 C0 OutC6Disabling HP HC
             ltac:(apply is_u64_land, HuP) ltac:(apply is_u64_land, HuC) Hpkg Hcore
             (λ v, Z.land v (Z.lnot (Z.shiftl 1 32)))
             (λ v, Z.land v (Z.lnot c6_core_bits))); reflexivity.
  - intros n. unfold P1. rewrite Z.lor_spec, testbit_shiftl_1 by lia. apply orb_comm.
  - intros n. unfold C1. rewrite Z.lor_spec, testbit_c6_core_bits. apply orb_comm.
  - intros n. unfold P0. rewrite testbit_clear, testbit_shiftl_1 by lia. reflexivity.
  - intros n. unfold C0. rewrite testbit_clear, testbit_c6_core_bits. reflexivity.
  - reflexivity.
  - reflexivity.
Qed.

(* ===================================================================== *)
(** ** Out-of-range requests and undefined ratios *)
(* ===================================================================== *)

Lemma pstate2str_unfold val :
  pstate2str val
  = if enabled_of val
    then if PrimFloat.eqb (PrimFloat.mul 12.5 (float_of_int (did_of val))) 0
         then inl ZeroDivisionError
         else inr (Enabled (fid_of val) (did_of val) (vid_of val)
                     (PrimFloat.div (float_of_int (25 * fid_of val))
                        (PrimFloat.mul 12.5 (float_of_int (did_of val))))
                     (vid_to_vcore (vid_of val)))
    else inr Disabled.
Proof. reflexivity. Qed.

Lemma divisor_nonzero :
  forallb (λ d, negb (PrimFloat.eqb (PrimFloat.mul 12.5 (float_of_int d)) 0))
          (range 1 64) = true.
Proof. vm_compute. reflexivity. Qed.

(** [pstate2str] fails on nothing else than an enabled value with DID 0. *)
Lemma pstate2str_defined val :
  enabled_of val = false ∨ did_of val ≠ 0 → ∃ d, pstate2str val = inr d.
Proof.
  intros H. rewrite pstate2str_unfold.
  destruct (enabled_of val); [|eauto].
  destruct H as [H|H]; [discriminate|].
  pose proof (field_bounds val 8 6 ltac:(lia) ltac:(lia)) as Hb.
  rewrite <- did_of_field in Hb.
  pose proof divisor_nonzero as Hall. rewrite forallb_forall in Hall.
  assert (did_of val ∈ range 1 64) as Hin by (apply elem_of_range; lia).
  apply list_elem_of_In, Hall in Hin.
  apply negb_true_iff in Hin. rewrite Hin. eauto.
Qed.

Lemma setbits_neg val base len new :
  0 <= base → new < 0 → setbits val base len new < 0.
Proof.
  intros Hb Hn. unfold setbits. apply Z.lor_neg. right. apply Z.shiftl_neg. exact Hn.
Qed.

Lemma edited_vcore a old v :
  PrimFloat.leb 0 (args.vcore a) = true →
  vcore_to_vid (args.vcore a) = inr v →
  ∃ new', edited a old = inr (setvid new' v).
Proof. intros Hle Hv. unfold edited. rewrite Hle, Hv. eauto. Qed.

Lemma lookup_cpu0_length (s : machine) msr v :
  s !! 0%nat ≫= (λ bank : gmap Z Z, bank !! msr) = Some v → (0 < length s)%nat.
Proof.
  intros H. apply bind_Some in H as (bank & Hs & _).
  apply lookup_lt_Some in Hs. exact Hs.
Qed.

(** A run of [commit] on a value [struct.pack] refuses. *)
Lemma commit_bad p addr old new s t s' r :
  ¬ is_u64 new → new ≠ old → (0 < length s)%nat →
  commit p addr old new s = (t, s', r) →
  (∃ e, r = inl e)
  ∧ Forall (λ ev, is_write ev = true → writes_to TSC_LOCK ev = true) t.
Proof.
  intros Hbad Hne Hpos H.
  apply commit_inv in H as [(_ & -> & _ & ->)|(lock & tl & s1 & rl & _ & Hwhen & Hrest)];
    [|  |exact Hne].
  { split; [eauto|constructor]. }
  apply when_lock_spec in Hwhen as (Htl & Hlen & _ & _).
  assert (Forall (λ ev, is_write ev = true → writes_to TSC_LOCK ev = true)
            (EvRead 0 TSC_LOCK lock :: tl)) as Hpre.
  { constructor; [discriminate|]. eapply Forall_impl; [exact Htl|].
    intros [c m v|c m v|o] [He|He]; simpl in *; congruence. }
  destruct Hrest as [(e & -> & -> & -> & ->)|(-> & tr & Hw & ->)].
  - split; [eauto|exact Hpre].
  - apply write_new_spec in Hw as (_ & _ & _ & Hw).
    destruct (Hw Hbad) as (Hpr & _ & Hr). split; [apply Hr; lia|].
    rewrite app_comm_cons. apply Forall_app. split; [exact Hpre|].
    eapply Forall_impl; [exact Hpr|]. intros [] He; simpl in *; congruence.
Qed.

(** Claim C3, amended (vcore overrides vid).  For every starting value and
    every request with an explicit vid in 0..255 and an explicit vcore >= 0
    whose [vcore_to_vid] lies in 0..255, the edits return and the VID field
    of the final value is [vcore_to_vid(vcore)]. *)
Theorem vcore_overrides_vid (a : args.t) (old : Z) (s : machine) (v : Z) :
  0 <= args.vid a <= 255 →
  PrimFloat.leb 0 (args.vcore a) = true →
  vcore_to_vid (args.vcore a) = inr v →
  0 <= v <= 255 →
  ∃ te new, edit_fields a old s = (te, s, inr new) ∧ vid_of new = v.
Proof.
  intros _ Hle Hv Hrange.
  destruct (edit_fields_spec a old s) as (te & Hte & _).
  destruct (edited_vcore a old v Hle Hv) as (new' & Hnew).
  exists te, (setvid new' v). rewrite Hte, Hnew. split; [reflexivity|].
  rewrite vid_of_field. apply field_setbits_same; lia.
Qed.

Lemma vcore_overrides_vid_witness :
  ∃ te new, edit_fields (args_vid_vcore 1.1) 0x8000000000000805 sample_machine
            = (te, sample_machine, inr new) ∧ vid_of new = 72.
Proof.
  apply (vcore_overrides_vid (args_vid_vcore 1.1) 0x8000000000000805 sample_machine 72).
  - simpl. lia.
  - reflexivity.
  - vm_compute. reflexivity.
  - lia.
Defined.

(** Claim C3 as stated fails at [--vid 10 --vcore 2.0]: [vcore_to_vid]
    gives -72, the final value is negative and its VID field reads 184. *)
Lemma vcore_precedence_counterexample :
  0 <= args.vid (args_vid_vcore 2) <= 255
  ∧ PrimFloat.leb 0 (args.vcore (args_vid_vcore 2)) = true
  ∧ vcore_to_vid (args.vcore (args_vid_vcore 2)) = inr (-72)
  ∧ edit_fields (args_vid_vcore 2) 0x8000000000000805 []
    = ([EvPrint (OutSetVid 16); EvPrint (OutSetVcore 2 (-72))], [], inr (-1177595))
  ∧ vid_of (-1177595) = 184
  ∧ vid_of (-1177595) ≠ -72.
Proof.
  split; [simpl; lia|]. split; [reflexivity|].
  split; [vm_compute; reflexivity|]. split; [vm_compute; reflexivity|].
  split; [reflexivity|discriminate].
Qed.

(** Claim C6, amended (a vcore that rounds to a negative VID).  For every
    request whose vcore >= 0 rounds to a negative VID, on a machine whose
    current P-State value is a register value, the block ends with an
    exception and every write of its trace is a write to the TSC-lock
    register: no P-State register is written. *)
Theorem negative_vid_aborts_without_pstate_write (a : args.t) (s : machine)
    (addr old v : Z) :
  0 <= args.pstate a →
  pstates !! Z.to_nat (args.pstate a) = Some addr →
  s !! 0%nat ≫= (λ bank : gmap Z Z, bank !! addr) = Some old →
  is_u64 old →
  PrimFloat.leb 0 (args.vcore a) = true →
  vcore_to_vid (args.vcore a) = inr v →
  v < 0 →
  ∃ t s' e, pstate_block a s = (t, s', inl e)
    ∧ Forall (λ ev, is_write ev = true → writes_to TSC_LOCK ev = true) t.
Proof.
  intros Hp Haddr Hold Hu64 Hle Hv Hneg.
  destruct (pstate_block a s) as [[t s'] r] eqn:H.
  apply (pstate_block_inv a s addr) in H
    as [(Hnone & _)|(old' & Hold' & [(e & He & -> & -> & ->)|(d & te & Hd & Hte & Hpr & H)])];
    [congruence| | |exact Hp|exact Haddr];
    rewrite Hold in Hold'; injection Hold' as <-.
  - exists [EvRead 0 addr old], s, e. split; [reflexivity|].
    repeat constructor. discriminate.
  - destruct (edited_vcore a old v Hle Hv) as (new' & Hnew).
    destruct H as [(e & He & _)|(new & tc & Hnew' & Hc & ->)]; [congruence|].
    rewrite Hnew in Hnew'. injection Hnew' as <-.
    pose proof (setbits_neg new' 14 8 v ltac:(lia) Hneg) as Hlt. fold (setvid new' v) in Hlt.
    apply commit_bad in Hc as [(e & ->) Hw].
    + exists ([EvRead 0 addr old; EvPrint (OutCurrent (args.pstate a) d)] ++ te ++ tc), s', e.
      split; [reflexivity|]. apply Forall_app. split; [repeat constructor; discriminate|].
      apply Forall_app. split; [|exact Hw].
      eapply Forall_impl; [exact Hpr|]. intros [] He; simpl in *; congruence.
    + unfold is_u64. lia.
    + unfold is_u64 in Hu64. lia.
    + eapply lookup_cpu0_length, Hold.
Qed.

(** Claim C7, amended (DID = 0 is fatal).  For every value with bit 63 set
    and DID field 0, [pstate2str] raises [ZeroDivisionError], and a mutation
    block that reads such a value as the current one ends with that exception
    right after the read. *)
Theorem did_zero_raises (val : Z) :
  enabled_of val = true → did_of val = 0 →
  pstate2str val = inl ZeroDivisionError
  ∧ ∀ (a : args.t) (s : machine) (addr : Z),
      0 <= args.pstate a →
      pstates !! Z.to_nat (args.pstate a) = Some addr →
      s !! 0%nat ≫= (λ bank : gmap Z Z, bank !! addr) = Some val →
      pstate_block a s = ([EvRead 0 addr val], s, inl ZeroDivisionError).
Proof.
  intros Hen Hdid.
  assert (pstate2str val = inl ZeroDivisionError) as Hstr
    by (rewrite pstate2str_unfold, Hen, Hdid; reflexivity).
  split; [exact Hstr|]. intros a s addr Hp Haddr Hval.
  destruct (pstate_block a s) as [[t s'] r] eqn:H.
  apply (pstate_block_inv a s addr) in H
    as [(Hnone & _)|(old & Hold & [(e & He & -> & -> & ->)|(d & te & Hd & _)])];
    [congruence| | |exact Hp|exact Haddr];
    rewrite Hval in Hold; injection Hold as <-; congruence.
Qed.

(** Claim C10 ([setbits] does not mask [new]).  There are a register value
    and a [new >= 2^length] for which [setbits] changes a bit at a position
    [>= base + length]: [setfid] with 256 sets the DID field to 1; 256 is what
    [vcore_to_vid] returns for [-0.05], and [setvid] with it sets bit 22;
    [setfid] with [2^63] sets the enabled bit; and the edits of [--fid 100]
    turn DID 8 into DID 9. *)
Theorem setbits_does_not_mask :
  (∃ val base len new n,
      is_u64 val ∧ 0 <= base ∧ 0 <= len ∧ 2 ^ len <= new ∧ base + len <= n
      ∧ Z.testbit (setbits val base len new) n ≠ Z.testbit val n)
  ∧ (did_of 0 = 0 ∧ did_of (setfid 0 256) = 1)
  ∧ (vcore_to_vid (-0.05) = inr 256
     ∧ Z.testbit 0 22 = false ∧ Z.testbit (setvid 0 256) 22 = true)
  ∧ (enabled_of 0 = false ∧ enabled_of (setfid 0 (2 ^ 63)) = true)
  ∧ (edit_fields (args_fid 0x100) 0x8000000000000805 []).2 = inr 0x8000000000000900.
Proof.
  split; [|split; [|split; [|split]]].
  - exists 0, 0, 8, 256, 8. unfold is_u64. repeat split; try lia. discriminate.
  - split; reflexivity.
  - split; [vm_compute; reflexivity|split; reflexivity].
  - split; reflexivity.
  - vm_compute. reflexivity.
Qed.

(* ===================================================================== *)
(** ** How the setters and the edits compose *)
(* ===================================================================== *)

Lemma setbits_overwrite val base len new1 new2 :
  0 <= base → 0 <= len → 0 <= new1 < 2 ^ len →
  setbits (setbits val base len new1) base len new2 = setbits val base len new2.
Proof.
  intros Hb Hl H1. apply Z.bits_inj'. intros n Hn.
  rewrite !setbits_spec by lia.
  destruct (Z.leb_spec base n), (Z.ltb_spec n (base + len)); simpl;
    rewrite ?andb_false_r, ?andb_true_r; try reflexivity.
  - rewrite (testbit_small new1 len) by lia. rewrite orb_false_r. reflexivity.
  - rewrite (Z.testbit_neg_r new1) by lia. rewrite orb_false_r. reflexivity.
  - rewrite (Z.testbit_neg_r new1) by lia. rewrite orb_false_r. reflexivity.
Qed.

Lemma setbits_commute val b1 l1 n1 b2 l2 n2 :
  0 <= b1 → 0 <= l1 → 0 <= b2 → 0 <= l2 →
  0 <= n1 < 2 ^ l1 → 0 <= n2 < 2 ^ l2 →
  b1 + l1 <= b2 ∨ b2 + l2 <= b1 →
  setbits (setbits val b1 l1 n1) b2 l2 n2 = setbits (setbits val b2 l2 n2) b1 l1 n1.
Proof.
  intros Hb1 Hl1 Hb2 Hl2 H1 H2 Hdis. apply Z.bits_inj'. intros n Hn.
  destruct (Z.le_gt_cases b1 n) as [Ha|Ha], (Z.lt_ge_cases n (b1 + l1)) as [Hb|Hb],
    (Z.le_gt_cases b2 n) as [Hc|Hc], (Z.lt_ge_cases n (b2 + l2)) as [Hd|Hd];
    try lia;
    repeat first [ rewrite (setbits_inside _ b1 l1) by lia
                 | rewrite (setbits_inside _ b2 l2) by lia
                 | rewrite (setbits_frame _ b1 l1) by lia
                 | rewrite (setbits_frame _ b2 l2) by lia ];
    reflexivity.
Qed.

Lemma setbits_u64 val base len new :
  0 <= base → 0 <= len → base + len <= 64 → 0 <= new < 2 ^ len →
  is_u64 val → is_u64 (setbits val base len new).
Proof.
  intros Hb Hl Hfit Hnew Hval. apply is_u64_bits in Hval as [H0 Hbits].
  apply is_u64_bits. split.
  - unfold setbits. apply Z.lor_nonneg. split.
    + apply Z.land_nonneg. left. exact H0.
    + apply Z.shiftl_nonneg. lia.
  - intros n Hn. rewrite setbits_frame by lia. apply Hbits. exact Hn.
Qed.

(** Property X1 (the field setters compose).  On fields that hold values of
    their width, setting a field twice keeps the last value, and setting two
    different fields gives the same register value in either order: the
    masks of [setfid], [setdid] and [setvid] (bits 0-7, 8-13, 14-21) do not
    overlap. *)
Theorem setters_compose (val fid did vid new : Z) :
  0 <= fid < 2 ^ 8 → 0 <= did < 2 ^ 6 → 0 <= vid < 2 ^ 8 →
  (setfid (setfid val fid) new = setfid val new
   ∧ setdid (setdid val did) new = setdid val new
   ∧ setvid (setvid val vid) new = setvid val new)
  ∧ (setdid (setfid val fid) did = setfid (setdid val did) fid
     ∧ setvid (setfid val fid) vid = setfid (setvid val vid) fid
     ∧ setvid (setdid val did) vid = setdid (setvid val vid) did).
Proof.
  intros Hf Hd Hv. unfold setfid, setdid, setvid. split.
  - repeat split; apply setbits_overwrite; lia.
  - repeat split; apply setbits_commute; lia.
Qed.

Lemma same_rest_refl v : same_rest v v.
Proof. split; auto. Qed.

Lemma same_rest_trans u v w : same_rest u v → same_rest v w → same_rest u w.
Proof.
  intros [H1 H1'] [H2 H2']. split; [|auto].
  intros n Hn. rewrite H2, H1 by lia. reflexivity.
Qed.

Lemma same_rest_setbits val base len new :
  0 <= base → 0 <= len → (base + len <= 22 ∨ (base = 63 ∧ len = 1)) →
  0 <= new < 2 ^ len → same_rest val (setbits val base len new).
Proof.
  intros Hb Hl Hpos Hnew. split.
  - intros n Hn. apply setbits_frame; lia.
  - apply setbits_u64; lia.
Qed.

(** One edit of bit 63. *)
Lemma edit_enabled_bit (b : bool) (bit : Z) val :
  0 <= bit < 2 →
  let w := if b then setbits val 63 1 bit else val in
  enabled_of w = (if b then Z.testbit bit 0 else enabled_of val)
  ∧ fid_of w = fid_of val ∧ did_of w = did_of val ∧ vid_of w = vid_of val
  ∧ same_rest val w.
Proof.
  intros Hbit. destruct b; simpl; [|auto using same_rest_refl].
  rewrite !fid_of_field, !did_of_field, !vid_of_field, !field_setbits_other by lia.
  rewrite enabled_of_testbit, setbits_inside by lia.
  do 4 (split; [reflexivity|]).
  apply same_rest_setbits; [lia|lia|lia|]. change (2 ^ 1) with 2. exact Hbit.
Qed.

(** One edit of a field below bit 22 with an in-range or absent value. *)
Lemma edit_low_field (base len x val : Z) :
  0 <= base → 0 <= len → base + len <= 22 → x < 2 ^ len →
  let w := if 0 <=? x then setbits val base len x else val in
  enabled_of w = enabled_of val
  ∧ field w base len = (if 0 <=? x then x else field val base len)
  ∧ (∀ base' len', 0 <= base' → 0 <= len' →
       base' + len' <= base ∨ base + len <= base' →
       field w base' len' = field val base' len')
  ∧ same_rest val w.
Proof.
  intros Hb Hl Hfit Hx. destruct (Z.leb_spec 0 x); simpl;
    [|auto using same_rest_refl].
  split; [apply enabled_of_setbits_low; lia|].
  split; [apply field_setbits_same; lia|].
  split; [|apply same_rest_setbits; lia].
  intros base' len' Hb' Hl' Hdis. apply field_setbits_other; lia.
Qed.

(** Property X2 (the edits of a request whose fields fit).  When the
    requested FID, DID and VID are below their field widths and a requested
    vcore rounds to a VID of 8 bits, the edits of the mutation block touch no
    register and only print; the new value decodes to the request: bit 63 is
    off with [--disable], else on with [--enable], else kept; FID and DID are
    the requested ones or the old ones; the VID is the one of [--vcore] if
    given, else of [--vid], else the old one; bits 22 to 62 are kept and a
    64-bit value stays one. *)
Theorem edit_fields_valid_request (a : args.t) (old : Z) (s : machine) :
  args.fid a < 2 ^ 8 → args.did a < 2 ^ 6 → args.vid a < 2 ^ 8 →
  (PrimFloat.leb 0 (args.vcore a) = true →
   ∃ v, vcore_to_vid (args.vcore a) = inr v ∧ 0 <= v < 2 ^ 8) →
  ∃ te new, edit_fields a old s = (te, s, inr new)
    ∧ Forall (λ e, is_print e = true) te
    ∧ enabled_of new
      = (if args.disable a then false
         else if args.enable a then true else enabled_of old)
    ∧ fid_of new = (if 0 <=? args.fid a then args.fid a else fid_of old)
    ∧ did_of new = (if 0 <=? args.did a then args.did a else did_of old)
    ∧ vid_of new = requested_vid a old
    ∧ same_rest old new.
Proof.
  intros Hf Hd Hv Hvc.
  destruct (edit_fields_spec a old s) as (te & Hte & Hpr).
  pose proof (edit_enabled_bit (args.enable a) 1 old ltac:(lia)) as (E1 & F1 & D1 & V1 & R1).
  set (n1 := if args.enable a then setbits old 63 1 1 else old) in *.
  pose proof (edit_enabled_bit (args.disable a) 0 n1 ltac:(lia)) as (E2 & F2 & D2 & V2 & R2).
  set (n2 := if args.disable a then setbits n1 63 1 0 else n1) in *.
  pose proof (edit_low_field 0 8 (args.fid a) n2 ltac:(lia) ltac:(lia) ltac:(lia) Hf)
    as (E3 & F3 & O3 & R3).
  fold (setfid n2 (args.fid a)) in *.
  set (n3 := if 0 <=? args.fid a then setfid n2 (args.fid a) else n2) in *.
  pose proof (edit_low_field 8 6 (args.did a) n3 ltac:(lia) ltac:(lia) ltac:(lia) Hd)
    as (E4 & F4 & O4 & R4).
  fold (setdid n3 (args.did a)) in *.
  set (n4 := if 0 <=? args.did a then setdid n3 (args.did a) else n3) in *.
  pose proof (edit_low_field 14 8 (args.vid a) n4 ltac:(lia) ltac:(lia) ltac:(lia) Hv)
    as (E5 & F5 & O5 & R5).
  fold (setvid n4 (args.vid a)) in *.
  set (n5 := if 0 <=? args.vid a then setvid n4 (args.vid a) else n4) in *.
  assert (Hen : enabled_of n5
                = (if args.disable a then false
                   else if args.enable a then true else enabled_of old)).
  { rewrite E5, E4, E3, E2. destruct (args.disable a); [reflexivity|].
    rewrite E1. destruct (args.enable a); reflexivity. }
  assert (Hfid : fid_of n5 = (if 0 <=? args.fid a then args.fid a else fid_of old)).
  { rewrite fid_of_field, (O5 0 8), (O4 0 8), F3 by lia.
    rewrite <- !fid_of_field, F2, F1. reflexivity. }
  assert (Hdid : did_of n5 = (if 0 <=? args.did a then args.did a else did_of old)).
  { rewrite did_of_field, (O5 8 6), F4, (O3 8 6) by lia.
    rewrite <- !did_of_field, D2, D1. reflexivity. }
  assert (Hvid : vid_of n5 = (if 0 <=? args.vid a then args.vid a else vid_of old)).
  { rewrite vid_of_field, F5, (O4 14 8), (O3 14 8) by lia.
    rewrite <- !vid_of_field, V2, V1. reflexivity. }
  assert (Hrest : same_rest old n5)
    by exact (same_rest_trans _ _ _
                (same_rest_trans _ _ _
                   (same_rest_trans _ _ _ (same_rest_trans _ _ _ R1 R2) R3) R4) R5).
  assert (Hed : edited a old
                = if PrimFloat.leb 0 (args.vcore a)
                  then match vcore_to_vid (args.vcore a) with
                       | inl e => inl e
                       | inr vid => inr (setvid n5 vid)
                       end
                  else inr n5) by reflexivity.
  rewrite Hed in Hte. unfold requested_vid.
  destruct (PrimFloat.leb 0 (args.vcore a)).
  - destruct (Hvc eq_refl) as (v & Hv' & Hvr). rewrite Hv' in Hte |- *.
    pose proof (edit_low_field 14 8 v n5 ltac:(lia) ltac:(lia) ltac:(lia) ltac:(lia))
      as (E6 & F6 & O6 & R6).
    replace (0 <=? v) with true in * by lia. fold (setvid n5 v) in *.
    exists te, (setvid n5 v). split; [exact Hte|]. split; [exact Hpr|].
    split; [rewrite E6; exact Hen|].
    split; [rewrite fid_of_field, (O6 0 8), <- fid_of_field by lia; exact Hfid|].
    split; [rewrite did_of_field, (O6 8 6), <- did_of_field by lia; exact Hdid|].
    split; [rewrite vid_of_field; exact F6|].
    eapply same_rest_trans; eassumption.
  - exists te, n5. repeat (split; [assumption|]). exact Hrest.
Qed.

(** Property X3 (what [pstate2str] returns).  A value with bit 63 clear is
    ["Disabled"]; with bit 63 set and a DID other than 0 it is described by
    its three fields, read at bits 0-7, 8-13 and 14-21, with the vcore
    [1.55 - 0.00625 * vid]; each field read lies within its width. *)
Theorem pstate2str_result (val : Z) :
  (enabled_of val = false → pstate2str val = inr Disabled)
  ∧ (enabled_of val = true → did_of val ≠ 0 →
     ∃ ratio, pstate2str val
              = inr (Enabled (fid_of val) (did_of val) (vid_of val) ratio
                       (vid_to_vcore (vid_of val))))
  ∧ 0 <= fid_of val < 2 ^ 8 ∧ 0 <= did_of val < 2 ^ 6 ∧ 0 <= vid_of val < 2 ^ 8.
Proof.
  split; [|split].
  - intros H. rewrite pstate2str_unfold, H. reflexivity.
  - intros Hen Hdid. rewrite pstate2str_unfold, Hen.
    pose proof (field_bounds val 8 6 ltac:(lia) ltac:(lia)) as Hb.
    rewrite <- did_of_field in Hb.
    pose proof divisor_nonzero as Hall. rewrite forallb_forall in Hall.
    assert (did_of val ∈ range 1 64) as Hin by (apply elem_of_range; lia).
    apply list_elem_of_In, Hall, negb_true_iff in Hin. rewrite Hin. eauto.
  - rewrite fid_of_field, did_of_field, vid_of_field.
    repeat split; apply field_bounds; lia.
Qed.

(* ===================================================================== *)
(** ** Reads after writes *)
(* ===================================================================== *)

Lemma reg_insert_eq (s : machine) c bank m v :
  s !! c = Some bank → reg (<[c := <[m := v]> bank]> s) c m = Some v.
Proof.
  intros H. unfold reg.
  rewrite list_lookup_insert_eq by (eapply lookup_lt_Some, H).
  simpl. apply lookup_insert_eq.
Qed.

Lemma reg_insert_ne (s : machine) c bank m v c' m' :
  s !! c = Some bank → c' ≠ c ∨ m' ≠ m →
  reg (<[c := <[m := v]> bank]> s) c' m' = reg s c' m'.
Proof.
  intros H Hne. unfold reg. destruct (decide (c' = c)) as [->|Hc].
  - rewrite list_lookup_insert_eq by (eapply lookup_lt_Some, H).
    rewrite H. simpl. apply lookup_insert_ne. destruct Hne; congruence.
  - rewrite list_lookup_insert_ne by congruence. reflexivity.
Qed.

Lemma write_one_reg msr val cpu s t s' :
  write_one msr val cpu s = (t, s', inr tt) →
  t = [EvWrite cpu msr val] ∧ is_u64 val ∧ is_Some (reg s cpu msr)
  ∧ length s' = length s
  ∧ reg s' cpu msr = Some val
  ∧ ∀ c m, c ≠ cpu ∨ m ≠ msr → reg s' c m = reg s c m.
Proof.
  unfold write_one. destruct (s !! cpu) as [bank|] eqn:E; [|discriminate].
  destruct (u64b val && _) eqn:Hc; [|discriminate].
  apply andb_true_iff in Hc as [Hv Hm]. apply u64b_spec in Hv.
  apply bool_decide_eq_true in Hm.
  intros [= <- <-]. split; [reflexivity|]. split; [exact Hv|].
  split; [unfold reg; rewrite E; exact Hm|].
  split; [apply length_insert|].
  split; [apply reg_insert_eq, E|].
  intros c m Hne. apply reg_insert_ne; assumption.
Qed.

Lemma write_one_fail msr val cpu s :
  ¬ (is_u64 val ∧ is_Some (reg s cpu msr)) →
  write_one msr val cpu s = ([], s, inl OSError).
Proof.
  intros H. unfold write_one, reg in *. destruct (s !! cpu) as [bank|]; [|reflexivity].
  simpl in H. destruct (u64b val && _) eqn:Hc; [|reflexivity].
  apply andb_true_iff in Hc as [Hv Hm]. apply u64b_spec in Hv.
  apply bool_decide_eq_true in Hm. tauto.
Qed.

(** Property X4 ([writemsr] on one CPU, then [readmsr]).  When the value
    packs into 64 bits and the CPU implements the register, [writemsr(msr,
    val, cpu)] makes one write, after which [readmsr(msr, cpu)] returns
    [val]; no CPU is added or removed and every other register of every CPU
    keeps its value.  Otherwise it raises [OSError] and writes nothing. *)
Theorem writemsr_cpu_roundtrip (msr val : Z) (c : nat) (s : machine) :
  (is_u64 val → is_Some (reg s c msr) →
   ∃ s', writemsr msr val (Some c) s = ([EvWrite c msr val], s', inr tt)
         ∧ readmsr msr c s' = ([EvRead c msr val], s', inr val)
         ∧ length s' = length s
         ∧ ∀ c' m, c' ≠ c ∨ m ≠ msr → reg s' c' m = reg s c' m)
  ∧ (¬ (is_u64 val ∧ is_Some (reg s c msr)) →
     writemsr msr val (Some c) s = ([], s, inl OSError)).
Proof.
  split.
  - intros Hv Hm. simpl. unfold reg in Hm.
    destruct (s !! c) as [bank|] eqn:E; simpl in Hm; [|destruct Hm; discriminate].
    exists (<[c := <[msr := val]> bank]> s).
    split; [|split; [|split]].
    + unfold write_one. rewrite E. apply u64b_spec in Hv.
      rewrite Hv, bool_decide_eq_true_2 by exact Hm. reflexivity.
    + apply readmsr_ok. apply (reg_insert_eq s c bank msr val E).
    + apply length_insert.
    + intros c' m Hne. apply reg_insert_ne; assumption.
  - intros H. simpl. apply write_one_fail, H.
Qed.

Lemma reg_fmap_insert (s : machine) msr val c m :
  reg ((λ bank : gmap Z Z, <[msr := val]> bank) <$> s) c m
  = if decide (m = msr) then (if decide (c < length s)%nat then Some val else None)
    else reg s c m.
Proof.
  unfold reg. rewrite list_lookup_fmap.
  destruct (s !! c) as [bank|] eqn:E; simpl.
  - apply lookup_lt_Some in E as Hlt.
    destruct (decide (m = msr)) as [->|Hne].
    + rewrite lookup_insert_eq. destruct (decide _); [reflexivity|lia].
    + apply lookup_insert_ne. congruence.
  - apply lookup_ge_None in E.
    destruct (decide (m = msr)); [|reflexivity]. destruct (decide _); [lia|reflexivity].
Qed.

Lemma write_one_done msr val c (s : machine) :
  is_u64 val → is_Some (reg s c msr) →
  ∃ s', write_one msr val c s = ([EvWrite c msr val], s', inr tt)
    ∧ length s' = length s
    ∧ reg s' c msr = Some val
    ∧ ∀ c' m, c' ≠ c ∨ m ≠ msr → reg s' c' m = reg s c' m.
Proof.
  intros Hv Hm. unfold reg in Hm.
  destruct (s !! c) as [bank|] eqn:E; simpl in Hm; [|destruct Hm; discriminate].
  exists (<[c := <[msr := val]> bank]> s).
  split; [apply write_one_ok; assumption|].
  split; [apply length_insert|].
  split; [apply (reg_insert_eq s c bank msr val E)|].
  intros c' m Hne. apply reg_insert_ne; assumption.
Qed.

(** Writing the CPUs of [l] that all implement [msr]. *)
Lemma for_each_write_reg msr val (l : list nat) (s : machine) :
  is_u64 val → (∀ c, c ∈ l → is_Some (reg s c msr)) →
  ∃ s', for_each l (write_one msr val) s
        = ((λ c, EvWrite c msr val) <$> l, s', inr tt)
    ∧ length s' = length s
    ∧ (∀ c, c ∈ l → reg s' c msr = Some val)
    ∧ (∀ c m, c ∉ l ∨ m ≠ msr → reg s' c m = reg s c m).
Proof.
  intros Hv. revert s. induction l as [|c l IH]; intros s Hall.
  - exists s. split; [reflexivity|]. split; [reflexivity|].
    split; [|reflexivity]. intros c Hc. apply elem_of_nil in Hc as [].
  - destruct (write_one_done msr val c s Hv (Hall c (list_elem_of_here _ _)))
      as (s1 & Hrun1 & Hlen1 & Hreg1 & Hframe1).
    destruct (IH s1) as (s' & Hrun & Hlen & Hreg & Hframe).
    { intros c' Hc'. destruct (decide (c' = c)) as [->|Hne].
      - rewrite Hreg1. eauto.
      - rewrite Hframe1 by (left; exact Hne).
        apply Hall, list_elem_of_further, Hc'. }
    exists s'. split; [|split; [congruence|split]].
    + simpl. rewrite (bind_step _ _ _ _ _ _ _ _ _ Hrun1 Hrun). reflexivity.
    + intros c' Hc'. destruct (decide (c' ∈ l)) as [Hin|Hnin]; [apply Hreg, Hin|].
      apply elem_of_cons in Hc' as [->|?]; [|contradiction].
      rewrite Hframe by (left; exact Hnin). exact Hreg1.
    + intros c' m Hout.
      assert (c' ∉ l ∨ m ≠ msr) as H1.
      { destruct Hout as [Hout|Hout]; [left|right; exact Hout].
        intros Hin. apply Hout, list_elem_of_further, Hin. }
      assert (c' ≠ c ∨ m ≠ msr) as H2.
      { destruct Hout as [Hout|Hout]; [left|right; exact Hout].
        intros ->. apply Hout, list_elem_of_here. }
      rewrite Hframe by exact H1. apply Hframe1, H2.
Qed.

(** Property X5 ([writemsr] on all CPUs).  When the value packs into 64
    bits and every CPU implements the register, [writemsr(msr, val)] writes
    each CPU once, in the order of the glob; afterwards the register holds
    [val] on every CPU and every other register is unchanged. *)
Theorem writemsr_broadcast_ok (msr val : Z) (s : machine) :
  is_u64 val → (∀ c, (c < length s)%nat → is_Some (reg s c msr)) →
  ∃ s', writemsr msr val None s
        = ((λ c, EvWrite c msr val) <$> glob s, s', inr tt)
    ∧ length s' = length s
    ∧ (∀ c, (c < length s)%nat → reg s' c msr = Some val)
    ∧ (∀ c m, m ≠ msr → reg s' c m = reg s c m).
Proof.
  intros Hv Hall.
  destruct (for_each_write_reg msr val (glob s) s Hv)
    as (s' & Hrun & Hlen & Hreg & Hframe).
  { intros c Hc. apply Hall, glob_elem, Hc. }
  exists s'. split; [|split; [exact Hlen|split]].
  - simpl. unfold cpu_devices.
    rewrite (bind_ok _ _ _ [] s (glob s)) by reflexivity. rewrite Hrun. reflexivity.
  - intros c Hc. apply Hreg, glob_elem, Hc.
  - intros c m Hne. apply Hframe. right. exact Hne.
Qed.

Lemma for_each_app_ok {A} (l1 l2 : list A) (body : A → M unit) s t1 s1 :
  for_each l1 body s = (t1, s1, inr tt) →
  for_each (l1 ++ l2) body s
  = (t1 ++ (for_each l2 body s1).1.1, (for_each l2 body s1).1.2,
     (for_each l2 body s1).2).
Proof.
  revert s t1. induction l1 as [|x l1 IH]; intros s t1 H; simpl in *.
  - injection H as <- <-. destruct (for_each l2 body s) as [[??]?]. reflexivity.
  - apply bind_inv in H as [(e & _ & [=])|(ta & sa & [] & tb & H1 & H2 & ->)].
    rewrite (bind_ok _ _ _ _ _ _ H1), (IH _ _ H2). simpl.
    rewrite app_assoc. reflexivity.
Qed.

(** Property X6 (a broadcast stops at the first failure).  When the glob
    lists the CPUs [first], then a CPU that does not implement the register,
    [writemsr(msr, val)] raises [OSError] after having written the CPUs of
    [first]: these hold [val], the CPUs listed after the failing one and all
    other registers are as before.  The writes made before the failure are
    not undone. *)
Theorem writemsr_broadcast_partial (msr val : Z) (s : machine)
    (first rest : list nat) (bad : nat) :
  is_u64 val →
  glob s = first ++ bad :: rest →
  (∀ c, c ∈ first → is_Some (reg s c msr)) →
  reg s bad msr = None →
  ∃ s', writemsr msr val None s
        = ((λ c, EvWrite c msr val) <$> first, s', inl OSError)
    ∧ length s' = length s
    ∧ (∀ c, c ∈ first → reg s' c msr = Some val)
    ∧ (∀ c m, c ∉ first ∨ m ≠ msr → reg s' c m = reg s c m).
Proof.
  intros Hv Hglob Hfirst Hbad.
  destruct (for_each_write_reg msr val first s Hv Hfirst)
    as (s' & Hrun & Hlen & Hreg & Hframe).
  exists s'. split; [|auto].
  assert (bad ∉ first) as Hnin.
  { intros Hin. destruct (Hfirst bad Hin) as [v Hv']. congruence. }
  assert (write_one msr val bad s' = ([], s', inl OSError)) as Hfail.
  { apply write_one_fail. rewrite Hframe by (left; exact Hnin). rewrite Hbad.
    intros [_ [v [=]]]. }
  simpl. unfold cpu_devices.
  rewrite (bind_ok _ _ _ [] s (glob s)) by reflexivity. rewrite Hglob.
  rewrite (for_each_app_ok _ _ _ _ _ _ Hrun). simpl for_each.
  rewrite (bind_err _ _ _ _ _ _ Hfail). simpl. rewrite app_nil_r. reflexivity.
Qed.

(** Property X7 (a value that does not pack).  When [val] is negative or
    takes more than 64 bits, [struct.pack('Q', val)] fails: [writemsr] writes
    nothing and raises [OSError], on one CPU and on all of them; only a
    broadcast over no CPU at all returns, its loop body never running. *)
Theorem writemsr_rejects_non_u64 (msr val : Z) (s : machine) :
  ¬ is_u64 val →
  writemsr msr val None s = ([], s, if decide (s = []) then inr tt else inl OSError)
  ∧ ∀ c, writemsr msr val (Some c) s = ([], s, inl OSError).
Proof.
  intros H. split.
  - simpl. unfold cpu_devices.
    rewrite (bind_ok _ _ _ [] s (glob s)) by reflexivity.
    rewrite for_each_write_bad by exact H.
    pose proof (glob_length s) as Hlen.
    destruct (glob s), s; simpl in Hlen; try discriminate; reflexivity.
  - intros c. simpl. apply write_one_bad, H.
Qed.

(* ===================================================================== *)
(** ** What a run leaves alone *)
(* ===================================================================== *)

Section Respects.
Context (R : machine → machine → Prop) `{!PreOrder R} (P : event → Prop).

Lemma respects_pure {A} (comp : M A) :
  (∀ s, ∃ r, comp s = ([], s, r)) → respects R P comp.
Proof.
  intros H s t s' r Hrun. destruct (H s) as [r' Hr]. rewrite Hr in Hrun.
  injection Hrun as <- <- _. split; [reflexivity|constructor].
Qed.

Lemma respects_ret {A} (a : A) : respects R P (ret a).
Proof. apply respects_pure. intros s. eexists. reflexivity. Qed.

Lemma respects_lift {A} (x : exn + A) : respects R P (lift x).
Proof. apply respects_pure. intros s. eexists. reflexivity. Qed.

Lemma respects_ncpus : respects R P ncpus.
Proof. apply respects_pure. intros s. eexists. reflexivity. Qed.

Lemma respects_cpu_devices : respects R P cpu_devices.
Proof. apply respects_pure. intros s. eexists. reflexivity. Qed.

Lemma respects_pstates_at p : respects R P (pstates_at p).
Proof.
  apply respects_pure. intros s. unfold pstates_at.
  destruct (pstates !! Z.to_nat p); eexists; reflexivity.
Qed.

Lemma respects_print o : P (EvPrint o) → respects R P (print o).
Proof.
  intros HP s t s' r [= <- <- _]. split; [reflexivity|repeat constructor; exact HP].
Qed.

Lemma respects_readmsr msr cpu :
  (∀ v, P (EvRead cpu msr v)) → respects R P (readmsr msr cpu).
Proof.
  intros HP s t s' r H.
  apply readmsr_inv in H as [-> [(v & _ & -> & _)|(-> & _)]];
    (split; [reflexivity|repeat constructor; auto]).
Qed.

Lemma respects_bind_res {A B} (Q : A → Prop) (m : M A) (f : A → M B) :
  respects R P m →
  (∀ s t s' x, m s = (t, s', inr x) → Q x) →
  (∀ x, Q x → respects R P (f x)) →
  respects R P (bind m f).
Proof.
  intros Hm HQ Hf s t s' r H.
  apply bind_inv in H as [(e & H & ->)|(t1 & s1 & x & t2 & H1 & H2 & ->)].
  - apply Hm in H. exact H.
  - pose proof (HQ _ _ _ _ H1) as Hx. apply Hm in H1 as [HR1 HP1].
    apply (Hf x Hx) in H2 as [HR2 HP2].
    split; [etransitivity; eassumption|apply Forall_app; auto].
Qed.

Lemma respects_bind {A B} (m : M A) (f : A → M B) :
  respects R P m → (∀ x, respects R P (f x)) → respects R P (bind m f).
Proof.
  intros Hm Hf. apply (respects_bind_res (λ _, True)); auto.
Qed.

Lemma respects_when (b : bool) (m : M unit) :
  respects R P m → respects R P (when b m).
Proof. intros H. destruct b; [exact H|apply respects_ret]. Qed.

Lemma respects_for_each {A} (l : list A) (body : A → M unit) :
  (∀ x, x ∈ l → respects R P (body x)) → respects R P (for_each l body).
Proof.
  induction l as [|x l IH]; intros H; simpl.
  - apply respects_ret.
  - apply respects_bind.
    + apply H, list_elem_of_here.
    + intros _. apply IH. intros y Hy. apply H, list_elem_of_further, Hy.
Qed.
End Respects.

#[local] Instance frame_outside_preorder regs : PreOrder (frame_outside regs).
Proof.
  split.
  - intros s. split; reflexivity.
  - intros s1 s2 s3 [L1 F1] [L2 F2]. split; [congruence|].
    intros c m Hm. rewrite F2, F1 by exact Hm. reflexivity.
Qed.

Lemma lor_lock_idem v :
  Z.lor (Z.lor v (Z.shiftl 1 21)) (Z.shiftl 1 21) = Z.lor v (Z.shiftl 1 21).
Proof. rewrite <- Z.lor_assoc, Z.lor_diag. reflexivity. Qed.

#[local] Instance lock_only_set_preorder : PreOrder lock_only_set.
Proof.
  split.
  - intros s c. left. reflexivity.
  - intros s1 s2 s3 H12 H23 c.
    destruct (H12 c) as [E1|(v & Hv & E1)], (H23 c) as [E2|(w & Hw & E2)].
    + left. congruence.
    + right. exists w. split; congruence.
    + right. exists v. split; congruence.
    + right. exists v. split; [exact Hv|].
      rewrite E2. rewrite E1 in Hw. injection Hw as <-.
      rewrite lor_lock_idem. reflexivity.
Qed.

Lemma respects_write_one_frame regs msr val cpu :
  msr ∈ regs →
  respects (frame_outside regs) (writes_within regs) (write_one msr val cpu).
Proof.
  intros Hin s t s' [e|[]] H.
  - apply write_one_inv in H as [_ [(_ & [=] & _)|(-> & _ & ->)]].
    split; [reflexivity|constructor].
  - apply write_one_reg in H as (-> & _ & _ & Hlen & _ & Hframe).
    split.
    + split; [exact Hlen|]. intros c m Hm. apply Hframe. right. congruence.
    + repeat constructor. intros c m v [= _ <- _]. exact Hin.
Qed.

Lemma respects_writemsr_frame regs msr val target :
  msr ∈ regs →
  respects (frame_outside regs) (writes_within regs) (writemsr msr val target).
Proof.
  intros Hin. destruct target as [c|]; simpl.
  - apply respects_write_one_frame, Hin.
  - apply respects_bind; [apply _|apply respects_cpu_devices; apply _|].
    intros cpus. apply respects_for_each; [apply _|].
    intros c _. apply respects_write_one_frame, Hin.
Qed.

Lemma respects_run {A} R P (comp : M A) :
  respects R P comp → ∀ s, R s (comp s).1.2 ∧ Forall P (comp s).1.1.
Proof.
  intros H s. destruct (comp s) as [[t s'] r] eqn:E. exact (H _ _ _ _ E).
Qed.

Lemma respects_edit_fields R `{!PreOrder R} (P : event → Prop) a old :
  (∀ o, P (EvPrint o)) → respects R P (edit_fields a old).
Proof.
  intros HP s t s' r H.
  destruct (edit_fields_spec a old s) as (te & Hte & Hpr).
  rewrite Hte in H. injection H as <- <- _. split; [reflexivity|].
  eapply Forall_impl; [exact Hpr|]. intros [] He; try discriminate. apply HP.
Qed.

Lemma pstates_at_elem p s t s' addr :
  pstates_at p s = (t, s', inr addr) → addr ∈ pstates.
Proof.
  unfold pstates_at. destruct (pstates !! Z.to_nat p) as [x|] eqn:E; [|discriminate].
  intros [= _ _ <-]. eapply list_elem_of_lookup_2, E.
Qed.

Lemma elem_of_pair (x a b : Z) : x ∈ [a; b] ↔ x = a ∨ x = b.
Proof.
  rewrite !elem_of_cons. split; [intros [?|[?|H]]|intros [?|?]]; auto.
  apply elem_of_nil in H as [].
Qed.

Lemma writes_within_print regs o : writes_within regs (EvPrint o).
Proof. intros c m v [=]. Qed.

Lemma writes_within_read regs c m v : writes_within regs (EvRead c m v).
Proof. intros c' m' v' [=]. Qed.

(** Structural decomposition of a goal [respects R P comp]. *)
Ltac respects_split_with leaf :=
  repeat first
    [ leaf
    | apply respects_ret; apply _
    | apply respects_lift; apply _
    | apply respects_ncpus; apply _
    | apply respects_cpu_devices; apply _
    | apply respects_pstates_at; apply _
    | apply respects_print; [apply _|]
    | apply respects_readmsr; [apply _|]
    | apply respects_when; [apply _|]
    | apply respects_for_each; [apply _|intros ? _]
    | apply respects_bind; [apply _| |intros ?] ].

Ltac respects_split := respects_split_with fail.

(** The leaves of the frame properties. *)
Ltac frame_leaf :=
  first [ apply writes_within_print
        | intros; apply writes_within_read
        | apply respects_edit_fields; [apply _|apply writes_within_print]
        | apply respects_writemsr_frame; assumption ].

Lemma respects_list_block R `{!PreOrder R} (P : event → Prop) a :
  (∀ o, P (EvPrint o)) → (∀ c m v, P (EvRead c m v)) →
  respects R P (list_block a).
Proof. intros HP HR. unfold list_block. respects_split; auto. Qed.

Lemma respects_commit_frame regs p addr old new :
  addr ∈ regs → TSC_LOCK ∈ regs →
  respects (frame_outside regs) (writes_within regs) (commit p addr old new).
Proof.
  intros Ha Ht. unfold commit, lock_tsc, write_new.
  respects_split_with frame_leaf.
Qed.

Lemma respects_pstate_block_frame regs a :
  (∀ addr, addr ∈ pstates → addr ∈ regs) → TSC_LOCK ∈ regs →
  respects (frame_outside regs) (writes_within regs) (pstate_block a).
Proof.
  intros Hp Ht. unfold pstate_block. apply respects_when; [apply _|].
  apply (respects_bind_res _ _ (λ addr, addr ∈ pstates));
    [apply respects_pstates_at; apply _|apply pstates_at_elem|].
  intros addr Haddr.
  respects_split_with ltac:(first [frame_leaf | apply respects_commit_frame; auto]).
Qed.

Lemma respects_c6_frame regs a :
  C6_PACKAGE ∈ regs → C6_CORE ∈ regs →
  respects (frame_outside regs) (writes_within regs) (c6_enable_block a)
  ∧ respects (frame_outside regs) (writes_within regs) (c6_disable_block a).
Proof.
  intros Hp Hc. unfold c6_enable_block, c6_disable_block.
  split; respects_split_with frame_leaf.
Qed.

(** Property X8 (the script writes only the registers it names).  Whatever
    the arguments and the machine, and whether the run ends or raises, a run
    of the script keeps the number of CPUs, leaves every register other than
    the eight P-State registers, the TSC-lock register and the two C6
    registers as it was, and emits writes to these eleven only. *)
Theorem main_writes_only_script_registers (a : args.t) (s : machine) :
  length (main a s).1.2 = length s
  ∧ (∀ c m, m ∉ script_registers → reg (main a s).1.2 c m = reg s c m)
  ∧ (∀ c m v, EvWrite c m v ∈ (main a s).1.1 → m ∈ script_registers).
Proof.
  assert (respects (frame_outside script_registers) (writes_within script_registers)
            (main a)) as H.
  { assert (TSC_LOCK ∈ script_registers) as Ht by apply list_elem_of_here.
    assert (C6_PACKAGE ∈ script_registers) as Hpk
      by apply list_elem_of_further, list_elem_of_here.
    assert (C6_CORE ∈ script_registers) as Hco
      by (do 2 apply list_elem_of_further; apply list_elem_of_here).
    assert (∀ addr, addr ∈ pstates → addr ∈ script_registers) as Hps
      by (intros addr Haddr; do 3 apply list_elem_of_further; exact Haddr).
    unfold main, help_block.
    respects_split_with
      ltac:(first [ frame_leaf
                  | apply respects_list_block;
                    [apply _|apply writes_within_print|apply writes_within_read]
                  | apply respects_pstate_block_frame; assumption
                  | apply respects_c6_frame; assumption ]). }
  destruct (respects_run _ _ _ H s) as [[Hlen Hframe] Hw].
  split; [exact Hlen|]. split; [exact Hframe|].
  intros c m v Hin. rewrite Forall_forall in Hw. exact (Hw _ Hin c m v eq_refl).
Qed.

(** Property X9 (the mutation block writes its own P-State register and the
    TSC lock only).  For [-p N] with [N] in range, every register other than
    P-State register [N] and the TSC-lock register is left as it was on every
    CPU, whatever the other arguments and however the block ends. *)
Theorem pstate_block_frame (a : args.t) (s : machine) (addr : Z) :
  0 <= args.pstate a → pstates !! Z.to_nat (args.pstate a) = Some addr →
  length (pstate_block a s).1.2 = length s
  ∧ (∀ c m, m ≠ addr → m ≠ TSC_LOCK → reg (pstate_block a s).1.2 c m = reg s c m)
  ∧ (∀ c m v, EvWrite c m v ∈ (pstate_block a s).1.1 → m = addr ∨ m = TSC_LOCK).
Proof.
  intros Hp Haddr.
  assert (respects (frame_outside [addr; TSC_LOCK]) (writes_within [addr; TSC_LOCK])
            (pstate_block a)) as H.
  { unfold pstate_block. apply respects_when; [apply _|].
    apply (respects_bind_res _ _ (λ x, x = addr));
      [apply respects_pstates_at; apply _| |].
    - unfold pstates_at. rewrite Haddr. intros s0 t0 s0' x [= _ _ <-]. reflexivity.
    - intros x ->.
      respects_split_with
        ltac:(first [frame_leaf | apply respects_commit_frame; apply elem_of_pair; auto]). }
  destruct (respects_run _ _ _ H s) as [[Hlen Hframe] Hw].
  split; [exact Hlen|]. split.
  - intros c m H1 H2. apply Hframe. rewrite elem_of_pair. tauto.
  - intros c m v Hin. rewrite Forall_forall in Hw.
    apply elem_of_pair, (Hw _ Hin c m v eq_refl).
Qed.

(** Property X10 (the C6 blocks write the two C6 registers only).  The
    enable block and the disable block each leave every other register of
    every CPU as it was, and emit writes to these two only. *)
Theorem c6_blocks_frame (a : args.t) (s : machine) :
  (length (c6_enable_block a s).1.2 = length s
   ∧ (∀ c m, m ≠ C6_PACKAGE → m ≠ C6_CORE →
             reg (c6_enable_block a s).1.2 c m = reg s c m)
   ∧ (∀ c m v, EvWrite c m v ∈ (c6_enable_block a s).1.1 →
               m = C6_PACKAGE ∨ m = C6_CORE))
  ∧ (length (c6_disable_block a s).1.2 = length s
     ∧ (∀ c m, m ≠ C6_PACKAGE → m ≠ C6_CORE →
               reg (c6_disable_block a s).1.2 c m = reg s c m)
     ∧ (∀ c m v, EvWrite c m v ∈ (c6_disable_block a s).1.1 →
                 m = C6_PACKAGE ∨ m = C6_CORE)).
Proof.
  destruct (respects_c6_frame [C6_PACKAGE; C6_CORE] a) as [He Hd];
    [apply elem_of_pair; auto..|].
  split.
  - destruct (respects_run _ _ _ He s) as [[Hlen Hframe] Hw].
    split; [exact Hlen|]. split.
    + intros c m H1 H2. apply Hframe. rewrite elem_of_pair. tauto.
    + intros c m v Hin. rewrite Forall_forall in Hw.
      apply elem_of_pair, (Hw _ Hin c m v eq_refl).
  - destruct (respects_run _ _ _ Hd s) as [[Hlen Hframe] Hw].
    split; [exact Hlen|]. split.
    + intros c m H1 H2. apply Hframe. rewrite elem_of_pair. tauto.
    + intros c m v Hin. rewrite Forall_forall in Hw.
      apply elem_of_pair, (Hw _ Hin c m v eq_refl).
Qed.

(** Property X11 (listing is read-only).  The [--list] block never changes
    the machine and emits no write, whatever it reads and however it ends. *)
Theorem list_block_read_only (a : args.t) (s : machine) :
  (list_block a s).1.2 = s
  ∧ Forall (λ e, is_write e = false) (list_block a s).1.1.
Proof.
  destruct (respects_run eq (λ e, is_write e = false) (list_block a)
              ltac:(apply respects_list_block; [apply _|reflexivity..]) s)
    as [Hs Ht].
  split; [symmetry; exact Hs|exact Ht].
Qed.

Lemma respects_write_one_lock msr val cpu :
  msr ≠ TSC_LOCK → respects lock_only_set (λ _, True) (write_one msr val cpu).
Proof.
  intros Hne s t s' [e|[]] H.
  - apply write_one_inv in H as [_ [(_ & [=] & _)|(-> & _ & ->)]].
    split; [reflexivity|constructor].
  - apply write_one_reg in H as (-> & _ & _ & _ & _ & Hframe).
    split; [|repeat constructor].
    intros c. left. apply Hframe. right. congruence.
Qed.

Lemma respects_lock_body c :
  respects lock_only_set (λ _, True)
    (v <- readmsr TSC_LOCK c ;;
     writemsr TSC_LOCK (Z.lor v (Z.shiftl 1 21)) (Some c)).
Proof.
  intros s t s' r H.
  apply bind_inv in H as [(e & H & ->)|(t1 & s1 & v & t2 & H1 & H2 & ->)].
  - apply readmsr_inv in H as [-> _]. split; [reflexivity|].
    apply Forall_forall. auto.
  - apply readmsr_inv in H1 as [-> [(v' & Hv & _ & [= <-])|[_ [=]]]].
    split; [|apply Forall_forall; auto]. simpl in H2. destruct r as [e|[]].
    + apply write_one_inv in H2 as [_ [(_ & [=] & _)|(_ & _ & ->)]]. reflexivity.
    + apply write_one_reg in H2 as (_ & _ & _ & _ & Hreg & Hframe).
      intros c'. destruct (decide (c' = c)) as [->|Hc].
      * right. exists v. split; [exact Hv|exact Hreg].
      * left. apply Hframe. left. exact Hc.
Qed.

Ltac lock_leaf :=
  first [ exact I
        | intros; exact I
        | apply respects_edit_fields; [apply _|intros; exact I]
        | apply respects_lock_body
        | apply respects_write_one_lock; assumption ].

Lemma respects_writemsr_lock msr val target :
  msr ≠ TSC_LOCK → respects lock_only_set (λ _, True) (writemsr msr val target).
Proof.
  intros Hne. destruct target as [c|]; simpl; respects_split_with lock_leaf.
Qed.

Lemma pstates_not_tsc addr : addr ∈ pstates → addr ≠ TSC_LOCK.
Proof.
  intros H. apply list_elem_of_lookup in H as [i Hi].
  apply pstates_lookup in Hi. unfold TSC_LOCK. lia.
Qed.

Lemma respects_main_lock a : respects lock_only_set (λ _, True) (main a).
Proof.
  assert (C6_PACKAGE ≠ TSC_LOCK) as Hpk by (unfold C6_PACKAGE, TSC_LOCK; lia).
  assert (C6_CORE ≠ TSC_LOCK) as Hco by (unfold C6_CORE, TSC_LOCK; lia).
  unfold main, help_block, c6_enable_block, c6_disable_block.
  respects_split_with
    ltac:(first [ apply respects_list_block; [apply _|intros; exact I..]
                | apply respects_writemsr_lock; assumption
                | lock_leaf
                | unfold pstate_block; apply respects_when; [apply _|];
                  apply (respects_bind_res _ _ (λ addr, addr ∈ pstates));
                  [apply respects_pstates_at; apply _|apply pstates_at_elem|];
                  intros addr Haddr; apply pstates_not_tsc in Haddr;
                  unfold commit, lock_tsc, write_new ]).
Qed.

Lemma lor_bit_set v k : 0 <= k → Z.testbit v k = true → Z.lor v (Z.shiftl 1 k) = v.
Proof.
  intros Hk Hv. apply Z.bits_inj'. intros n Hn.
  rewrite Z.lor_spec, testbit_shiftl_1 by lia.
  destruct (Z.eqb_spec n k) as [->|]; [rewrite Hv|rewrite orb_false_r]; reflexivity.
Qed.

(** Property X12 (the TSC-lock register is only ever ORed with bit 21).
    After any run of the script, the TSC-lock register of a CPU holds what it
    held before, or that value with bit 21 set; when bit 21 was set before,
    the register is unchanged.  The script never clears the lock. *)
Theorem tsc_lock_never_cleared (a : args.t) (s : machine) (c : nat) (v : Z) :
  reg s c TSC_LOCK = Some v →
  (reg (main a s).1.2 c TSC_LOCK = Some v
   ∨ reg (main a s).1.2 c TSC_LOCK = Some (Z.lor v (Z.shiftl 1 21)))
  ∧ (Z.testbit v 21 = true → reg (main a s).1.2 c TSC_LOCK = Some v).
Proof.
  intros Hv.
  destruct (respects_run _ _ _ (respects_main_lock a) s) as [H _].
  assert (reg (main a s).1.2 c TSC_LOCK = Some v
          ∨ reg (main a s).1.2 c TSC_LOCK = Some (Z.lor v (Z.shiftl 1 21))) as Hor.
  { destruct (H c) as [E|(w & Hw & E)].
    - left. congruence.
    - right. congruence. }
  split; [exact Hor|]. intros Hbit.
  destruct Hor as [E|E]; [exact E|]. rewrite lor_bit_set in E by (lia || exact Hbit).
  exact E.
Qed.

(* ===================================================================== *)
(** ** Runs in which every access succeeds *)
(* ===================================================================== *)

Lemma lock_loop_ok (rest done : machine) :
  Forall (λ bank : gmap Z Z, ∃ v, bank !! TSC_LOCK = Some v ∧ is_u64 v) rest →
  ∃ t, for_each (seq (length done) (length rest))
         (λ c, v <- readmsr TSC_LOCK c ;;
               writemsr TSC_LOCK (Z.lor v (Z.shiftl 1 21)) (Some c))
         (done ++ rest)
       = (t, done ++ (lock_bank <$> rest), inr tt).
Proof.
  revert done. induction rest as [|bank rest IH]; intros done Hall.
  - exists []. reflexivity.
  - apply Forall_cons in Hall as [(v & Hv & Hu) Hall].
    destruct (IH (done ++ [lock_bank bank]) Hall) as (t & Ht).
    rewrite length_app, Nat.add_1_r, <- !app_assoc in Ht.
    assert (is_u64 (Z.shiftl 1 21)) as Hbit by (apply u64b_spec; reflexivity).
    assert (lock_bank bank = <[TSC_LOCK := Z.lor v (Z.shiftl 1 21)]> bank) as Hlb
      by (unfold lock_bank; rewrite Hv; reflexivity).
    rewrite Hlb in Ht. eexists. simpl. rewrite Hlb.
    eapply bind_step; [|exact Ht].
    eapply bind_step.
    + apply readmsr_ok. rewrite list_lookup_middle by reflexivity. exact Hv.
    + simpl. rewrite (write_one_ok _ _ _ _ bank);
        [|apply is_u64_lor; assumption|apply list_lookup_middle; reflexivity|eauto].
      rewrite insert_app_r_alt, Nat.sub_diag by lia. reflexivity.
Qed.

Lemma lock_tsc_ok (s : machine) :
  Forall (λ bank : gmap Z Z, ∃ v, bank !! TSC_LOCK = Some v ∧ is_u64 v) s →
  ∃ t, lock_tsc s = (t, lock_bank <$> s, inr tt).
Proof.
  intros H. destruct (lock_loop_ok s [] H) as (t & Ht). simpl in Ht.
  exists ([EvPrint OutLockingTSC] ++ [] ++ t). unfold lock_tsc.
  eapply bind_step; [reflexivity|]. eapply bind_step; [reflexivity|].
  rewrite glob_length. exact Ht.
Qed.

Lemma reg_fmap_lock (s : machine) c m :
  reg (lock_bank <$> s) c m
  = if decide (m = TSC_LOCK)
    then (λ v, Z.lor v (Z.shiftl 1 21)) <$> reg s c m
    else reg s c m.
Proof.
  unfold reg. rewrite list_lookup_fmap.
  destruct (s !! c) as [bank|]; simpl; [|destruct (decide _); reflexivity].
  unfold lock_bank. destruct (decide (m = TSC_LOCK)) as [->|Hne].
  - destruct (bank !! TSC_LOCK) as [v|] eqn:E; simpl.
    + apply lookup_insert_eq.
    + exact E.
  - destruct (bank !! TSC_LOCK); [apply lookup_insert_ne; congruence|reflexivity].
Qed.

Lemma Forall_reg (s : machine) (Q : option Z → Prop) m :
  (∀ c, (c < length s)%nat → Q (reg s c m)) →
  Forall (λ bank : gmap Z Z, Q (bank !! m)) s.
Proof.
  intros H. apply Forall_lookup. intros c bank Hc.
  specialize (H c (lookup_lt_Some _ _ _ Hc)). unfold reg in H.
  rewrite Hc in H. exact H.
Qed.

(** A run of [commit] in which every access succeeds. *)
Lemma commit_ok p addr old new s lock d :
  addr ≠ TSC_LOCK → new ≠ old → is_u64 new → pstate2str new = inr d →
  reg s 0 TSC_LOCK = Some lock →
  (∀ c, (c < length s)%nat → is_Some (reg s c addr)) →
  (Z.testbit lock 21 = false →
   ∀ c, (c < length s)%nat → ∃ v, reg s c TSC_LOCK = Some v ∧ is_u64 v) →
  ∃ t, commit p addr old new s
       = (t, (λ bank : gmap Z Z, <[addr := new]> bank)
               <$> (if Z.testbit lock 21 then s else lock_bank <$> s),
          inr tt).
Proof.
  intros Hne Hnew Hu Hd Hlock Himpl Htsc. unfold commit.
  replace (new =? old) with false by lia. cbn [negb when].
  assert (∀ s1 : machine,
            Forall (λ bank : gmap Z Z, is_Some (bank !! addr)) s1 →
            ∃ t, write_new p addr new s1
                 = (t, (λ bank : gmap Z Z, <[addr := new]> bank) <$> s1, inr tt))
    as Hwrite.
  { intros s1 Hs1. eexists. unfold write_new.
    eapply bind_step; [unfold lift; rewrite Hd; reflexivity|].
    eapply bind_step; [reflexivity|]. apply writemsr_all_ok; assumption. }
  destruct (Z.testbit lock 21) eqn:Hbit.
  - destruct (Hwrite s (Forall_reg s is_Some addr Himpl)) as (tw & Htw).
    eexists. eapply bind_step; [apply readmsr_ok; exact Hlock|].
    rewrite lock_bit_clear, Hbit. simpl.
    eapply bind_step; [reflexivity|]. exact Htw.
  - destruct (lock_tsc_ok s) as (tl & Htl).
    { apply (Forall_reg s (λ o, ∃ v, o = Some v ∧ is_u64 v) TSC_LOCK). auto. }
    destruct (Hwrite (lock_bank <$> s)) as (tw & Htw).
    { apply Forall_fmap. eapply Forall_impl; [apply (Forall_reg s is_Some addr Himpl)|].
      intros bank Hb. simpl. unfold lock_bank.
      destruct (bank !! TSC_LOCK); [|exact Hb].
      rewrite lookup_insert_ne by congruence. exact Hb. }
    eexists. eapply bind_step; [apply readmsr_ok; exact Hlock|].
    rewrite lock_bit_clear, Hbit. simpl.
    eapply bind_step; [exact Htl|]. exact Htw.
Qed.

(** Property X13 (a mutation that changes the value reaches every CPU).
    For [-p N] whose edits give a new 64-bit value other than the old one,
    both of which [pstate2str] can describe, on a machine where every CPU
    implements P-State register [N] (and the TSC-lock register, when CPU 0
    reports the lock clear), the block runs to its end: P-State register [N] holds the new value on every CPU, and the
    TSC-lock register of each CPU is ORed with bit 21 exactly when CPU 0
    reported bit 21 clear. *)
Theorem mutation_commits (a : args.t) (s : machine) (addr old new lock : Z)
    (d d' : description) (te : list event) (se : machine) :
  0 <= args.pstate a →
  pstates !! Z.to_nat (args.pstate a) = Some addr →
  reg s 0 addr = Some old →
  pstate2str old = inr d →
  edit_fields a old s = (te, se, inr new) →
  new ≠ old → is_u64 new → pstate2str new = inr d' →
  reg s 0 TSC_LOCK = Some lock →
  (∀ c, (c < length s)%nat → is_Some (reg s c addr)) →
  (Z.testbit lock 21 = false →
   ∀ c, (c < length s)%nat → ∃ v, reg s c TSC_LOCK = Some v ∧ is_u64 v) →
  ∃ t s', pstate_block a s = (t, s', inr tt)
    ∧ length s' = length s
    ∧ (∀ c, (c < length s)%nat → reg s' c addr = Some new)
    ∧ (∀ c v, reg s c TSC_LOCK = Some v →
         reg s' c TSC_LOCK
         = Some (if Z.testbit lock 21 then v else Z.lor v (Z.shiftl 1 21))).
Proof.
  intros Hp Haddr Hold Hd Hed Hne Hu Hd' Hlock Himpl Htsc.
  assert (addr ≠ TSC_LOCK) as Hneq
    by (apply pstates_lookup in Haddr; unfold TSC_LOCK; lia).
  destruct (edit_fields_spec a old s) as (te' & Hte & _).
  rewrite Hed in Hte. injection Hte as <- -> Hnew.
  destruct (commit_ok (args.pstate a) addr old new s lock d'
              Hneq Hne Hu Hd' Hlock Himpl Htsc) as (tc & Htc).
  eexists _, _. split.
  - unfold pstate_block, pstates_at.
    replace (0 <=? args.pstate a) with true by lia. rewrite Haddr. simpl.
    eapply bind_step; [reflexivity|].
    eapply bind_step; [apply readmsr_ok; exact Hold|].
    eapply bind_step; [unfold lift; rewrite Hd; reflexivity|].
    eapply bind_step; [reflexivity|].
    eapply bind_step; [exact Hed|]. exact Htc.
  - split; [|split].
    + rewrite length_fmap. destruct (Z.testbit lock 21); [|rewrite length_fmap]; reflexivity.
    + intros c Hc. rewrite reg_fmap_insert, decide_True by reflexivity.
      rewrite decide_True; [reflexivity|].
      destruct (Z.testbit lock 21); [|rewrite length_fmap]; exact Hc.
    + intros c v Hv. rewrite reg_fmap_insert, decide_False by congruence.
      destruct (Z.testbit lock 21); [exact Hv|].
      rewrite reg_fmap_lock, decide_True by reflexivity. rewrite Hv. reflexivity.
Qed.

Lemma for_each_pure_ok {A} (l : list A) (body : A → M unit) (tr : A → list event) s :
  (∀ x, x ∈ l → body x s = (tr x, s, inr tt)) →
  for_each l body s = (flat_map tr l, s, inr tt).
Proof.
  induction l as [|x l IH]; intros H; simpl; [reflexivity|].
  eapply bind_step; [apply H, list_elem_of_here|].
  apply IH. intros y Hy. apply H, list_elem_of_further, Hy.
Qed.

Lemma elem_of_range_inv lo hi x : x ∈ range lo hi → lo <= x < hi.
Proof.
  unfold range. intros H. apply list_elem_of_fmap in H as (i & -> & Hi).
  apply elem_of_seq in Hi. lia.
Qed.

Lemma pstates_at_ok p s :
  0 <= p < 8 → pstates_at p s = ([], s, inr (0xC0010064 + p)).
Proof.
  intros Hp. unfold pstates_at, pstates, range.
  rewrite list_lookup_fmap.
  assert (seq 0 (Z.to_nat (0xC001006C - 0xC0010064)) !! Z.to_nat p = Some (Z.to_nat p))
    as -> by (apply lookup_seq; split; [reflexivity|lia]).
  simpl. unfold ret. do 3 f_equal. lia.
Qed.

Lemma c6_core_shown C :
  (Z.land C c6_core_bits =? c6_core_bits)
  = Z.testbit C 6 && Z.testbit C 14 && Z.testbit C 22.
Proof.
  apply eq_true_iff_eq. rewrite Z.eqb_eq, !andb_true_iff. split.
  - intros H.
    assert (∀ n, Z.testbit c6_core_bits n = true → Z.testbit C n = true) as Hb.
    { intros n Hn. rewrite <- H, Z.land_spec in Hn.
      apply andb_true_iff in Hn as [Hn _]. exact Hn. }
    repeat split; apply Hb; reflexivity.
  - intros [[H6 H14] H22]. apply Z.bits_inj'. intros n Hn.
    rewrite Z.land_spec, testbit_c6_core_bits.
    destruct (Z.eqb_spec n 6) as [->|]; [rewrite H6; reflexivity|].
    destruct (Z.eqb_spec n 14) as [->|]; [rewrite H14; reflexivity|].
    destruct (Z.eqb_spec n 22) as [->|]; [rewrite H22; reflexivity|].
    apply andb_false_r.
Qed.

(** Property X14 (what [--list] shows).  When CPU 0 implements the eight
    P-State registers and the two C6 registers, and each P-State value can
    be described, [--list] reads CPU 0 only: for P0 to P7 in order it reads
    the register and prints its description, then it reads the package
    register and prints whether bit 32 is set, then the core register and
    prints whether bits 6, 14 and 22 are all set. *)
Theorem list_block_shows (a : args.t) (s : machine) (val : Z → Z)
    (desc : Z → description) (P C : Z) :
  args.list a = true →
  (∀ p, 0 <= p < 8 →
        reg s 0 (0xC0010064 + p) = Some (val p) ∧ pstate2str (val p) = inr (desc p)) →
  reg s 0 C6_PACKAGE = Some P →
  reg s 0 C6_CORE = Some C →
  list_block a s
  = (flat_map (λ p, [EvRead 0 (0xC0010064 + p) (val p);
                     EvPrint (OutPState p (desc p))]) (range 0 8)
     ++ [EvRead 0 C6_PACKAGE P;
         EvPrint (OutC6Package (Z.testbit P 32));
         EvRead 0 C6_CORE C;
         EvPrint (OutC6Core (Z.testbit C 6 && Z.testbit C 14 && Z.testbit C 22))],
     s, inr tt).
Proof.
  intros Hl Hps HP HC. unfold list_block. rewrite Hl.
  cbv beta iota delta [when].
  change (Z.of_nat (length pstates)) with 8.
  eapply bind_step.
  - apply (for_each_pure_ok _ _
             (λ p, [EvRead 0 (0xC0010064 + p) (val p); EvPrint (OutPState p (desc p))])).
    intros p Hp. apply elem_of_range_inv in Hp.
    destruct (Hps p Hp) as [Hv Hd].
    eapply (bind_step _ _ _ []); [apply pstates_at_ok; exact Hp|].
    eapply (bind_step _ _ _ [_]); [apply readmsr_ok; exact Hv|].
    eapply (bind_step _ _ _ []); [unfold lift; rewrite Hd; reflexivity|].
    reflexivity.
  - eapply (bind_step _ _ _ [_]); [apply readmsr_ok; exact HP|].
    rewrite (bit_test P 32) by lia.
    eapply (bind_step _ _ _ [_]); [reflexivity|].
    eapply (bind_step _ _ _ [_]); [apply readmsr_ok; exact HC|].
    rewrite c6_core_shown. reflexivity.
Qed.

#[local] Instance any_machines_preorder : PreOrder (λ _ _ : machine, True).
Proof. split; intros ?; auto. Qed.

Lemma respects_write_one_events (P : event → Prop) msr val cpu :
  P (EvWrite cpu msr val) → respects (λ _ _, True) P (write_one msr val cpu).
Proof.
  intros HP s t s' r H.
  apply write_one_inv in H as [_ [(-> & _)|(-> & _)]];
    (split; [exact I|repeat constructor; assumption]).
Qed.

(** Property X15 (help is printed exactly when nothing is asked).  With
    none of [--list], [-p], [--c6-enable] and [--c6-disable], the script only
    prints the help and touches no register; with any of them, no run prints
    the help, however it ends. *)
Theorem help_iff_no_action (a : args.t) (s : machine) :
  (args.list a = false ∧ args.pstate a = -1
   ∧ args.c6_enable a = false ∧ args.c6_disable a = false →
   main a s = ([EvPrint OutHelp], s, inr tt))
  ∧ (args.list a = true ∨ args.pstate a ≠ -1
     ∨ args.c6_enable a = true ∨ args.c6_disable a = true →
     EvPrint OutHelp ∉ (main a s).1.1).
Proof.
  split.
  { intros (Hl & Hp & He & Hd).
    unfold main, list_block, pstate_block, c6_enable_block, c6_disable_block,
      help_block.
    rewrite Hl, Hp, He, Hd. reflexivity. }
  intros Hact.
  assert (respects (λ _ _, True) (λ e, e ≠ EvPrint OutHelp) (main a)) as H.
  { unfold main, list_block, pstate_block, edit_fields, commit, lock_tsc, write_new,
      c6_enable_block, c6_disable_block, help_block.
    replace (negb (args.list a) && (args.pstate a =? -1)
             && negb (args.c6_enable a) && negb (args.c6_disable a)) with false.
    - cbv zeta.
      respects_split_with
        ltac:(first [ discriminate
                    | intros; discriminate
                    | apply respects_write_one_events; discriminate
                    | match goal with
                      | |- respects _ _ (if ?b then _ else _) => destruct b
                      end ]).
    - symmetry. apply not_true_iff_false. rewrite !andb_true_iff, !negb_true_iff.
      intros [[[H1 H2] H3] H4]. apply Z.eqb_eq in H2.
      destruct Hact as [?|[?|[?|?]]]; congruence. }
  destruct (respects_run _ _ _ H s) as [_ HP].
  intros Hin. rewrite Forall_forall in HP. exact (HP _ Hin eq_refl).
Qed.

Lemma clear_after_set v mask : Z.land (Z.lor v mask) (Z.lnot mask) = Z.land v (Z.lnot mask).
Proof.
  apply Z.bits_inj'. intros n Hn.
  rewrite !testbit_clear, Z.lor_spec.
  destruct (Z.testbit mask n), (Z.testbit v n); reflexivity.
Qed.

Lemma reg_c6_written (s : machine) (P C : Z) c :
  (c < length s)%nat →
  reg ((λ bank : gmap Z Z, <[C6_CORE := C]> (<[C6_PACKAGE := P]> bank)) <$> s)
      c C6_PACKAGE = Some P
  ∧ reg ((λ bank : gmap Z Z, <[C6_CORE := C]> (<[C6_PACKAGE := P]> bank)) <$> s)
        c C6_CORE = Some C.
Proof.
  intros Hc. unfold reg. rewrite list_lookup_fmap.
  destruct (s !! c) as [bank|] eqn:E; [|apply lookup_ge_None in E; lia]. simpl.
  split.
  - rewrite lookup_insert_ne by (unfold C6_CORE, C6_PACKAGE; lia).
    apply lookup_insert_eq.
  - apply lookup_insert_eq.
Qed.

(** Property X16 ([--c6-enable] together with [--c6-disable]).  With these
    two flags and neither [--list] nor [-p], both blocks run, enable first: on a machine whose CPUs implement the two C6
    registers the run ends with bit 32 of the package register and bits 6,
    14 and 22 of the core register clear on every CPU, the other bits being
    those CPU 0 held.  The disable block wins. *)
Theorem c6_disable_wins (a : args.t) (s : machine) (P C : Z) :
  args.list a = false → args.pstate a = -1 →
  args.c6_enable a = true → args.c6_disable a = true →
  reg s 0 C6_PACKAGE = Some P → reg s 0 C6_CORE = Some C →
  is_u64 P → is_u64 C →
  (∀ c, (c < length s)%nat →
        is_Some (reg s c C6_PACKAGE) ∧ is_Some (reg s c C6_CORE)) →
  ∃ t s', main a s = (t, s', inr tt)
    ∧ ∀ c, (c < length s)%nat →
        reg s' c C6_PACKAGE = Some (Z.land P (Z.lnot (Z.shiftl 1 32)))
        ∧ reg s' c C6_CORE = Some (Z.land C (Z.lnot c6_core_bits)).
Proof.
  intros Hl Hp He Hd HP HC HuP HuC Himpl.
  assert (is_u64 (Z.shiftl 1 32)) as Hb32 by (apply u64b_spec; reflexivity).
  assert (is_u64 c6_core_bits) as Hbc by (apply u64b_spec; reflexivity).
  assert (Forall (λ bank : gmap Z Z, is_Some (bank !! C6_PACKAGE)) s) as Hpk
    by (apply (Forall_reg s is_Some); intros c Hc; apply Himpl, Hc).
  assert (Forall (λ bank : gmap Z Z, is_Some (bank !! C6_CORE)) s) as Hco
    by (apply (Forall_reg s is_Some); intros c Hc; apply Himpl, Hc).
  set (P1 := Z.lor P (Z.shiftl 1 32)). set (C1 := Z.lor C c6_core_bits).
  set (s1 := (λ bank : gmap Z Z, <[C6_CORE := C1]> (<[C6_PACKAGE := P1]> bank)) <$> s).
  pose proof (c6_steps s P C P1 C1 OutC6Enabling HP HC
                ltac:(apply is_u64_lor; assumption) ltac:(apply is_u64_lor; assumption)
                Hpk Hco (λ v, Z.lor v (Z.shiftl 1 32)) (λ v, Z.lor v c6_core_bits)
                eq_refl eq_refl) as Hen.
  fold s1 in Hen.
  assert (0 < length s)%nat as Hpos by (eapply lookup_cpu0_length, HP).
  destruct (reg_c6_written s P1 C1 0 Hpos) as [HP1 HC1]. fold s1 in HP1, HC1.
  assert (Forall (λ bank : gmap Z Z, is_Some (bank !! C6_PACKAGE)) s1
          ∧ Forall (λ bank : gmap Z Z, is_Some (bank !! C6_CORE)) s1) as [Hpk1 Hco1].
  { split; apply (Forall_reg s1 is_Some); intros c Hc;
      unfold s1 in Hc; rewrite length_fmap in Hc;
      destruct (reg_c6_written s P1 C1 c Hc) as [E1 E2]; fold s1 in E1, E2;
      [rewrite E1|rewrite E2]; eauto. }
  pose proof (c6_steps s1 P1 C1 (Z.land P (Z.lnot (Z.shiftl 1 32)))
                (Z.land C (Z.lnot c6_core_bits)) OutC6Disabling HP1 HC1
                ltac:(apply is_u64_land; assumption) ltac:(apply is_u64_land; assumption)
                Hpk1 Hco1 (λ v, Z.land v (Z.lnot (Z.shiftl 1 32)))
                (λ v, Z.land v (Z.lnot c6_core_bits))
                (clear_after_set P _) (clear_after_set C _)) as Hdis.
  eexists _, _. split.
  - unfold main, list_block, pstate_block, c6_enable_block, c6_disable_block, help_block.
    rewrite Hl, Hp, He, Hd. cbn [when negb andb Z.leb Z.compare].
    eapply (bind_step _ _ _ []); [reflexivity|].
    eapply (bind_step _ _ _ []); [reflexivity|].
    eapply bind_step; [exact Hen|].
    eapply bind_step; [exact Hdis|].
    rewrite andb_false_r. reflexivity.
  - intros c Hc. apply reg_c6_written. unfold s1. rewrite length_fmap. exact Hc.
Qed.

(** Property X17 (a vcore that cannot be rounded).  When [round] raises on
    the requested vcore (an infinity), the mutation block has read the P-State
    register and printed the current state and the messages of the earlier
    edits, and then raises that exception: nothing has been written. *)
Theorem vcore_not_roundable_aborts (a : args.t) (s : machine) (addr old : Z)
    (d : description) (e : exn) :
  0 <= args.pstate a →
  pstates !! Z.to_nat (args.pstate a) = Some addr →
  reg s 0 addr = Some old →
  pstate2str old = inr d →
  PrimFloat.leb 0 (args.vcore a) = true →
  vcore_to_vid (args.vcore a) = inl e →
  ∃ te, pstate_block a s
        = ([EvRead 0 addr old; EvPrint (OutCurrent (args.pstate a) d)] ++ te,
           s, inl e)
    ∧ Forall (λ ev, is_print ev = true) te.
Proof.
  intros Hp Haddr Hold Hd Hle He.
  destruct (edit_fields_spec a old s) as (te & Hte & Hpr).
  assert (edited a old = inl e) as Hed by (unfold edited; rewrite Hle, He; reflexivity).
  rewrite Hed in Hte. exists te. split; [|exact Hpr].
  unfold pstate_block, pstates_at.
  replace (0 <=? args.pstate a) with true by lia. rewrite Haddr. simpl.
  eapply (bind_step _ _ _ []); [reflexivity|].
  eapply (bind_step _ _ _ [_]); [apply readmsr_ok; exact Hold|].
  eapply (bind_step _ _ _ []); [unfold lift; rewrite Hd; reflexivity|].
  eapply (bind_step _ _ _ [_]); [reflexivity|].
  apply bind_err. exact Hte.
Qed.

End Script.

(* ===================================================================== *)
(** ** The theorems at sample inputs *)
(* ===================================================================== *)

Lemma index_order_perm (s : machine) : index_order s ≡ₚ seq 0 (length s).
Proof. reflexivity. Qed.

Lemma listed_perm (l : list nat) (s : machine) : listed l s ≡ₚ seq 0 (length s).
Proof. unfold listed. destruct (decide _) as [H|_]; [exact H|reflexivity]. Qed.

(** [-p 0 --vid 10 --vcore 1.1] on two CPUs whose TSC is not locked: the lock
    is set on both CPUs, by index, then the new value is written to both, in
    the order of the glob: here CPU 1 first. *)
Example mutation_run :
  (main (listed [1; 0]%nat) (args_vid_vcore 1.1) sample_machine).1.1
  = [EvRead 0 0xC0010064 0x8000000000000805;
     EvPrint (OutCurrent 0 (Enabled 5 8 0 1.25 1.55));
     EvPrint (OutSetVid 0x10);
     EvPrint (OutSetVcore (vid_to_vcore 72) 72);
     EvRead 0 TSC_LOCK 0; EvPrint OutLockingTSC;
     EvRead 0 TSC_LOCK 0; EvWrite 0 TSC_LOCK 0x200000;
     EvRead 1 TSC_LOCK 0; EvWrite 1 TSC_LOCK 0x200000;
     EvPrint (OutNew 0 (Enabled 5 8 72 1.25 (vid_to_vcore 72)));
     EvWrite 1 0xC0010064 0x8000000000120805;
     EvWrite 0 0xC0010064 0x8000000000120805].
Proof. vm_compute. reflexivity. Qed.

Example mutation_run_by_index :
  (main index_order (args_vid_vcore 1.1) sample_machine).1.1
  = [EvRead 0 0xC0010064 0x8000000000000805;
     EvPrint (OutCurrent 0 (Enabled 5 8 0 1.25 1.55));
     EvPrint (OutSetVid 0x10);
     EvPrint (OutSetVcore (vid_to_vcore 72) 72);
     EvRead 0 TSC_LOCK 0; EvPrint OutLockingTSC;
     EvRead 0 TSC_LOCK 0; EvWrite 0 TSC_LOCK 0x200000;
     EvRead 1 TSC_LOCK 0; EvWrite 1 TSC_LOCK 0x200000;
     EvPrint (OutNew 0 (Enabled 5 8 72 1.25 (vid_to_vcore 72)));
     EvWrite 0 0xC0010064 0x8000000000120805;
     EvWrite 1 0xC0010064 0x8000000000120805].
Proof. vm_compute. reflexivity. Qed.

Lemma negative_vid_aborts_without_pstate_write_witness :
  ∃ t s' e, pstate_block index_order (args_vid_vcore 2) sample_machine
            = (t, s', inl e)
    ∧ Forall (λ ev, is_write ev = true → writes_to TSC_LOCK ev = true) t.
Proof.
  apply (negative_vid_aborts_without_pstate_write index_order index_order_perm
           (args_vid_vcore 2) sample_machine 0xC0010064 0x8000000000000805 (-72)).
  - simpl. lia.
  - reflexivity.
  - reflexivity.
  - unfold is_u64. lia.
  - reflexivity.
  - vm_compute. reflexivity.
  - lia.
Defined.


(** Claim C6 as stated fails at [--vcore 2.0] on a machine whose TSC is not
    locked: the VID is -72, and the TSC-lock register of both CPUs is written
    before the block ends with [OSError]. *)
Lemma invalid_voltage_counterexample :
  PrimFloat.leb 0 (args.vcore (args_vid_vcore 2)) = true
  ∧ vcore_to_vid (args.vcore (args_vid_vcore 2)) = inr (-72)
  ∧ (pstate_block index_order (args_vid_vcore 2) sample_machine).1.1
    = [EvRead 0 0xC0010064 0x8000000000000805;
       EvPrint (OutCurrent 0 (Enabled 5 8 0 1.25 1.55));
       EvPrint (OutSetVid 16); EvPrint (OutSetVcore 2 (-72));
       EvRead 0 TSC_LOCK 0; EvPrint OutLockingTSC;
       EvRead 0 TSC_LOCK 0; EvWrite 0 TSC_LOCK 0x200000;
       EvRead 1 TSC_LOCK 0; EvWrite 1 TSC_LOCK 0x200000;
       EvPrint (OutNew 0 (Enabled 5 8 184 1.25 (vid_to_vcore 184)))]
  ∧ (pstate_block index_order (args_vid_vcore 2) sample_machine).2 = inl OSError.
Proof.
  split; [reflexivity|]. split; [vm_compute; reflexivity|].
  split; vm_compute; reflexivity.
Qed.

Lemma did_zero_raises_witness :
  pstate2str 0x8000000000000005 = inl ZeroDivisionError.
Proof.
  apply (did_zero_raises index_order 0x8000000000000005); reflexivity.
Defined.


(** Claim C7 as stated fails at [0x8000000000000005] (enabled, FID 5,
    DID 0): [pstate2str] raises, and [--list] on a machine whose P0 holds it
    ends with the exception after the first read. *)
Lemma did_zero_counterexample :
  enabled_of 0x8000000000000005 = true
  ∧ did_of 0x8000000000000005 = 0
  ∧ pstate2str 0x8000000000000005 = inl ZeroDivisionError
  ∧ (main index_order args_list [sample_bank 0x8000000000000005 0 0 0]).1.1
    = [EvRead 0 0xC0010064 0x8000000000000005]
  ∧ (main index_order args_list [sample_bank 0x8000000000000005 0 0 0]).2
    = inl ZeroDivisionError.
Proof.
  split; [reflexivity|]. split; [reflexivity|]. split; [reflexivity|].
  split; vm_compute; reflexivity.
Qed.

Lemma pstate_codec_roundtrip_witness :
  decode (encode 0 true 5 8 72) = (true, 5, 8, 72).
Proof. apply (pstate_codec_roundtrip 0 true 5 8 72); lia. Defined.

Lemma encode_field_isolation_witness :
  did_of (setfid 0x8000000000000805 0x10) = did_of 0x8000000000000805.
Proof. apply (encode_field_isolation 0x8000000000000805 0x10 8 0x48); lia. Defined.

Lemma tsc_lock_ordering_witness :
  lock_precedes (length sample_machine) 0xC0010064
    (pstate_block index_order (args_vid_vcore 1.1) sample_machine).1.1.
Proof.
  destruct (pstate_block index_order (args_vid_vcore 1.1) sample_machine)
    as [[t s'] r] eqn:H.
  apply (tsc_lock_ordering index_order index_order_perm
           (args_vid_vcore 1.1) sample_machine 0xC0010064 0 t s' r).
  - simpl. lia.
  - reflexivity.
  - reflexivity.
  - exact H.
  - reflexivity.
Defined.

Lemma noop_mutation_writes_nothing_witness :
  ∃ t r, pstate_block index_order (args_fid 5) sample_machine
         = (t, sample_machine, r)
    ∧ Forall (λ e, is_write e = false ∧ on_register TSC_LOCK e = false) t
    ∧ (∀ d, pstate2str 0x8000000000000805 = inr d →
         r = inr tt
         ∧ t = [EvRead 0 0xC0010064 0x8000000000000805;
                EvPrint (OutCurrent (args.pstate (args_fid 5)) d)]
               ++ [EvPrint (OutSetFid 5)]).
Proof.
  apply (noop_mutation_writes_nothing index_order (args_fid 5) sample_machine
           0xC0010064
           0x8000000000000805 [EvPrint (OutSetFid 5)] sample_machine).
  - simpl. lia.
  - reflexivity.
  - reflexivity.
  - vm_compute. reflexivity.
Defined.

Lemma c6_toggle_bits_witness :
  c6_enable_block (listed [2; 0; 1]%nat) (args_c6 true false) three_cpus
  = ([EvRead 0 C6_PACKAGE 0;
      EvWrite 2 C6_PACKAGE 0x100000000; EvWrite 0 C6_PACKAGE 0x100000000;
      EvWrite 1 C6_PACKAGE 0x100000000;
      EvRead 0 C6_CORE 0;
      EvWrite 2 C6_CORE 0x404040; EvWrite 0 C6_CORE 0x404040;
      EvWrite 1 C6_CORE 0x404040;
      EvPrint OutC6Enabling],
     (λ bank : gmap Z Z, <[C6_CORE := 0x404040]> (<[C6_PACKAGE := 0x100000000]> bank))
       <$> three_cpus,
     inr tt).
Proof.
  pose proof (c6_toggle_bits (listed [2; 0; 1]%nat) (listed_perm _)
                (args_c6 true false) three_cpus 0 0) as H.
  destruct H as [H _].
  - reflexivity.
  - reflexivity.
  - unfold is_u64. lia.
  - unfold is_u64. lia.
  - repeat (constructor; [eexists; reflexivity|]). constructor.
  - repeat (constructor; [eexists; reflexivity|]). constructor.
  - rewrite H by reflexivity. reflexivity.
Defined.

(* ===================================================================== *)
(** ** The further properties at concrete inputs *)
(* ===================================================================== *)

Lemma setters_compose_witness :
  (setfid (setfid 0x8000000000000805 5) 0x48 = setfid 0x8000000000000805 0x48
   ∧ setdid (setdid 0x8000000000000805 8) 0x48 = setdid 0x8000000000000805 0x48
   ∧ setvid (setvid 0x8000000000000805 0x10) 0x48 = setvid 0x8000000000000805 0x48)
  ∧ setdid (setfid 0x8000000000000805 5) 8 = setfid (setdid 0x8000000000000805 8) 5
  ∧ setvid (setfid 0x8000000000000805 5) 0x10 = setfid (setvid 0x8000000000000805 0x10) 5
  ∧ setvid (setdid 0x8000000000000805 8) 0x10 = setdid (setvid 0x8000000000000805 0x10) 8.
Proof. apply (setters_compose 0x8000000000000805 5 8 0x10 0x48); lia. Defined.

Lemma edit_fields_valid_request_witness :
  ∃ te new, edit_fields args_enable_disable 0x8000000000000805 sample_machine
            = (te, sample_machine, inr new)
    ∧ Forall (λ e, is_print e = true) te
    ∧ enabled_of new = false
    ∧ fid_of new = 0x10
    ∧ did_of new = 8
    ∧ vid_of new = 72
    ∧ same_rest 0x8000000000000805 new.
Proof.
  apply (edit_fields_valid_request args_enable_disable 0x8000000000000805
           sample_machine).
  - simpl. lia.
  - simpl. lia.
  - simpl. lia.
  - intros _. exists 72. split; [vm_compute; reflexivity|lia].
Defined.

Lemma writemsr_broadcast_ok_witness :
  ∃ s', writemsr (listed [1; 0]%nat) TSC_LOCK 0x200000 None sample_machine
        = ([EvWrite 1 TSC_LOCK 0x200000; EvWrite 0 TSC_LOCK 0x200000], s', inr tt)
    ∧ length s' = length sample_machine
    ∧ (∀ c, (c < length sample_machine)%nat → reg s' c TSC_LOCK = Some 0x200000)
    ∧ (∀ c m, m ≠ TSC_LOCK → reg s' c m = reg sample_machine c m).
Proof.
  apply (writemsr_broadcast_ok (listed [1; 0]%nat) (listed_perm _)
           TSC_LOCK 0x200000 sample_machine).
  - apply u64b_spec. reflexivity.
  - intros c Hc. simpl in Hc.
    destruct c as [|[|c]]; [eexists; reflexivity..|lia].
Defined.

Lemma writemsr_broadcast_partial_witness :
  ∃ s', writemsr (listed [3; 1; 2; 0]%nat) 0xC0010064 5 None broken_machine
        = ([EvWrite 3 0xC0010064 5; EvWrite 1 0xC0010064 5], s', inl OSError)
    ∧ length s' = length broken_machine
    ∧ (∀ c, c ∈ [3; 1]%nat → reg s' c 0xC0010064 = Some 5)
    ∧ (∀ c m, c ∉ [3; 1]%nat ∨ m ≠ 0xC0010064 → reg s' c m = reg broken_machine c m).
Proof.
  apply (writemsr_broadcast_partial (listed [3; 1; 2; 0]%nat) 0xC0010064 5
           broken_machine [3; 1]%nat [0]%nat 2%nat).
  - apply u64b_spec. reflexivity.
  - vm_compute. reflexivity.
  - intros c Hc. apply elem_of_cons in Hc as [->|Hc]; [eexists; reflexivity|].
    apply list_elem_of_singleton in Hc as ->. eexists; reflexivity.
  - reflexivity.
Defined.

Lemma writemsr_rejects_non_u64_witness :
  writemsr index_order 0xC0010064 (2 ^ 64) None sample_machine
  = ([], sample_machine, inl OSError)
  ∧ ∀ c, writemsr index_order 0xC0010064 (2 ^ 64) (Some c) sample_machine
         = ([], sample_machine, inl OSError).
Proof.
  apply (writemsr_rejects_non_u64 index_order index_order_perm
           0xC0010064 (2 ^ 64) sample_machine).
  intros H. apply u64b_spec in H. vm_compute in H. discriminate.
Defined.

Lemma pstate_block_frame_witness :
  length (pstate_block (listed [1; 0]%nat) (args_vid_vcore 1.1) mixed_machine).1.2
  = length mixed_machine
  ∧ (∀ c m, m ≠ 0xC0010064 → m ≠ TSC_LOCK →
       reg (pstate_block (listed [1; 0]%nat) (args_vid_vcore 1.1) mixed_machine).1.2 c m
       = reg mixed_machine c m)
  ∧ (∀ c m v,
       EvWrite c m v ∈ (pstate_block (listed [1; 0]%nat) (args_vid_vcore 1.1) mixed_machine).1.1 →
       m = 0xC0010064 ∨ m = TSC_LOCK).
Proof.
  apply (pstate_block_frame (listed [1; 0]%nat) (args_vid_vcore 1.1) mixed_machine
           0xC0010064).
  - simpl. lia.
  - reflexivity.
Defined.

Lemma tsc_lock_never_cleared_witness :
  (reg (main (listed [1; 0]%nat) (args_vid_vcore 1.1) mixed_machine).1.2 1 TSC_LOCK
   = Some 0x4
   ∨ reg (main (listed [1; 0]%nat) (args_vid_vcore 1.1) mixed_machine).1.2 1 TSC_LOCK
     = Some (Z.lor 0x4 (Z.shiftl 1 21)))
  ∧ (Z.testbit 0x4 21 = true →
     reg (main (listed [1; 0]%nat) (args_vid_vcore 1.1) mixed_machine).1.2 1 TSC_LOCK
     = Some 0x4).
Proof.
  apply (tsc_lock_never_cleared (listed [1; 0]%nat) (args_vid_vcore 1.1)
           mixed_machine 1 0x4).
  reflexivity.
Defined.

Lemma mutation_commits_witness :
  ∃ t s', pstate_block (listed [1; 0]%nat) (args_vid_vcore 1.1) mixed_machine
          = (t, s', inr tt)
    ∧ length s' = length mixed_machine
    ∧ (∀ c, (c < length mixed_machine)%nat →
            reg s' c 0xC0010064 = Some 0x8000000000120805)
    ∧ (∀ c v, reg mixed_machine c TSC_LOCK = Some v →
         reg s' c TSC_LOCK
         = Some (if Z.testbit 0 21 then v else Z.lor v (Z.shiftl 1 21))).
Proof.
  apply (mutation_commits (listed [1; 0]%nat) (listed_perm _)
           (args_vid_vcore 1.1) mixed_machine 0xC0010064
           0x8000000000000805 0x8000000000120805 0
           (Enabled 5 8 0 1.25 1.55) (Enabled 5 8 72 1.25 (vid_to_vcore 72))
           [EvPrint (OutSetVid 0x10); EvPrint (OutSetVcore (vid_to_vcore 72) 72)]
           mixed_machine).
  - simpl. lia.
  - reflexivity.
  - reflexivity.
  - vm_compute. reflexivity.
  - vm_compute. reflexivity.
  - lia.
  - apply u64b_spec. reflexivity.
  - vm_compute. reflexivity.
  - reflexivity.
  - intros c Hc. simpl in Hc. destruct c as [|[|c]]; [eexists; reflexivity..|lia].
  - intros _ c Hc. simpl in Hc.
    destruct c as [|[|c]];
      [eexists; split; [reflexivity|apply u64b_spec; reflexivity]..|lia].
Defined.

Lemma list_block_shows_witness :
  list_block args_list [full_bank 0x8000000000000805]
  = (flat_map
       (λ p, [EvRead 0 (3221291108 + p) (if p =? 0 then 0x8000000000000805 else 0);
              EvPrint (OutPState p (if p =? 0 then Enabled 5 8 0 1.25 1.55
                                    else Disabled))])
       (range 0 8)
     ++ [EvRead 0 C6_PACKAGE 0; EvPrint (OutC6Package (Z.testbit 0 32));
         EvRead 0 C6_CORE 0;
         EvPrint (OutC6Core (Z.testbit 0 6 && Z.testbit 0 14 && Z.testbit 0 22))],
     [full_bank 0x8000000000000805], inr tt).
Proof.
  apply (list_block_shows args_list [full_bank 0x8000000000000805]
           (λ p, if p =? 0 then 0x8000000000000805 else 0)
           (λ p, if p =? 0 then Enabled 5 8 0 1.25 1.55 else Disabled) 0 0).
  - reflexivity.
  - intros p Hp.
    assert (p = 0 ∨ p = 1 ∨ p = 2 ∨ p = 3 ∨ p = 4 ∨ p = 5 ∨ p = 6 ∨ p = 7)
      as Hcases by lia.
    destruct Hcases as [->|[->|[->|[->|[->|[->|[->| ->]]]]]]];
      (split; vm_compute; reflexivity).
  - vm_compute. reflexivity.
  - vm_compute. reflexivity.
Defined.

Lemma c6_disable_wins_witness :
  ∃ t s', main (listed [2; 0; 1]%nat) (args_c6 true true) three_cpus = (t, s', inr tt)
    ∧ ∀ c, (c < length three_cpus)%nat →
        reg s' c C6_PACKAGE = Some (Z.land 0 (Z.lnot (Z.shiftl 1 32)))
        ∧ reg s' c C6_CORE = Some (Z.land 0 (Z.lnot c6_core_bits)).
Proof.
  apply (c6_disable_wins (listed [2; 0; 1]%nat) (listed_perm _)
           (args_c6 true true) three_cpus 0 0);
    try reflexivity; try (apply u64b_spec; reflexivity).
  intros c Hc. simpl in Hc.
  destruct c as [|[|[|c]]]; [split; eexists; reflexivity..|lia].
Defined.

Lemma vcore_not_roundable_aborts_witness :
  ∃ te, pstate_block index_order (args_vid_vcore infinity) sample_machine
        = ([EvRead 0 0xC0010064 0x8000000000000805;
            EvPrint (OutCurrent (args.pstate (args_vid_vcore infinity))
                       (Enabled 5 8 0 1.25 1.55))] ++ te,
           sample_machine, inl OverflowError)
    ∧ Forall (λ ev, is_print ev = true) te.
Proof.
  apply (vcore_not_roundable_aborts index_order (args_vid_vcore infinity)
           sample_machine 0xC0010064 0x8000000000000805 (Enabled 5 8 0 1.25 1.55)
           OverflowError).
  - simpl. lia.
  - reflexivity.
  - reflexivity.
  - vm_compute. reflexivity.
  - reflexivity.
  - vm_compute. reflexivity.
Defined.
